(** * powork: a shallow embedding of [powork.go] and its specification

    The Go package searches a nonce such that the hash of a message followed
    by the nonce starts with [difficulty] zero bits.  The embedding follows
    the source function by function:

    - Go [int] and [int64] are [Z] with the 64-bit two's-complement
      wrap-around written out ([wrap64]); [uint8] is [Byte.byte];
    - [hash.Hash] is an interface: a type class over the state of the hash
      object, whose methods are deterministic functions of that state;
    - [errors.New] builds an [error] from its message;
    - the endless [for] of [DoProofFor] is a fixpoint on a step budget, and
      the timer channel of [time.After] is polled through a [Timer]: the
      time elapsed at each [select] and whether the runtime has delivered
      the timer's value by then;
    - a goroutine and its channel are a step relation, interleaved with the
      steps of the other goroutines that use the channel. *)

From Stdlib Require Import String.
From Stdlib Require Import ZArith List Bool Strings.Byte Lia.
Import ListNotations.
Local Open Scope Z_scope.

(** ** Machine integers *)

Module GoInt.

Definition min_int : Z := - 2 ^ 63.
Definition max_int : Z := 2 ^ 63 - 1.

(** Values a Go [int] (or [int64]) variable can hold on a 64-bit target. *)
Definition is_int (z : Z) : Prop := min_int <= z <= max_int.

(** Result of an arithmetic operation stored back into an [int]. *)
Definition wrap64 (z : Z) : Z := (z + 2 ^ 63) mod 2 ^ 64 - 2 ^ 63.

(** [uint64(v)] for a signed [v]. *)
Definition uint64 (z : Z) : Z := z mod 2 ^ 64.

(** [v++] and [v--]. *)
Definition incr (z : Z) : Z := wrap64 (z + 1).
Definition decr (z : Z) : Z := wrap64 (z - 1).

End GoInt.
Import GoInt.

(** ** Bytes ([uint8]) *)

Module U8.

Definition to_Z (b : byte) : Z := Z.of_N (Byte.to_N b).

(** Conversion to [uint8] keeps the low eight bits. *)
Definition of_Z (z : Z) : byte :=
  match Byte.of_N (Z.to_N (z mod 256)) with
  | Some b => b
  | None => x00
  end.

(** [x << k] and [x >> k] on a [uint8]. *)
Definition shl (x : byte) (k : Z) : byte := of_Z (Z.shiftl (to_Z x) k).
Definition shr (x : byte) (k : Z) : byte := of_Z (Z.shiftr (to_Z x) k).

(** Bit [7] is the most significant one. *)
Definition bit (x : byte) (i : Z) : bool := Z.testbit (to_Z x) i.

End U8.

(** ** Errors *)

Inductive error : Type :=
| errors_New (text : String.string).

Definition ErrDifficulty : error := errors_New "Difficulty must be at least 1"%string.
Definition ErrTimeout : error :=
  errors_New "Timeout must be greater than or equal to 0"%string.
Definition ErrTimedOut : error :=
  errors_New "Timed out while calculating proof of work"%string.
Definition ErrBufferOverrun : error :=
  errors_New "Buffer overrun: not enough bits in hash"%string.

(** ** The bit scan of [ValidatePoWork] *)

(** Outcome of the inner [for i := 0; i < 8; i++] loop on one byte: either
    the function returned, or the loop ended and [N] carries on. *)
Inductive scanned : Type :=
| Returned (res : bool)
| Carry (N : Z).

(** [k] is the number of iterations the inner loop still has to run. *)
Fixpoint scanByte (k : nat) (x : byte) (N : Z) : scanned :=
  match k with
  | O => Carry N
  | S k' =>
      if Byte.eqb (U8.shr (U8.shl x 1) 1) x then
        let N := decr N in
        let x := U8.shl x 1 in
        if N =? 0 then Returned true else scanByte k' x N
      else Returned false
  end.

(** The [for _, x := range sum] loop and the final return. *)
Fixpoint scanSum (sum : list byte) (N : Z) : bool * option error :=
  match sum with
  | [] => (false, Some ErrBufferOverrun)
  | x :: rest =>
      match scanByte 8 x N with
      | Returned res => (res, None)
      | Carry N' => scanSum rest N'
      end
  end.

(** ** What the specification says about digests *)

(** Bits of a byte, most significant first. *)
Definition byteBits (x : byte) : list bool :=
  map (fun i => U8.bit x (Z.of_nat i)) [7; 6; 5; 4; 3; 2; 1; 0]%nat.

(** Bits of a digest: bytes in order, each most significant bit first. *)
Definition digestBits (D : list byte) : list bool := flat_map byteBits D.

Definition bitlength (D : list byte) : Z := 8 * Z.of_nat (length D).

(** The first [n] bits of [D] are all zero. *)
Definition leadingZeros (n : nat) (D : list byte) : bool :=
  forallb negb (firstn n (digestBits D)).

(** Every bit of [D] is zero. *)
Definition allZero (D : list byte) : bool := forallb negb (digestBits D).

(** The scan read off a list of bits: the reference the two loops are
    compared with. *)
Fixpoint scanBits (bs : list bool) (N : Z) : scanned :=
  match bs with
  | [] => Carry N
  | b :: bs' =>
      if b then Returned false
      else if decr N =? 0 then Returned true else scanBits bs' (decr N)
  end.

Definition finish (s : scanned) : bool * option error :=
  match s with
  | Returned res => (res, None)
  | Carry _ => (false, Some ErrBufferOverrun)
  end.


(** ** The hash capability ([hash.Hash]) *)

(** The three methods the package calls.  [H] is the state of the hash
    object; [Write] also returns the error of Go's [(n int, err error)]
    (the byte count is ignored by the package). *)
Class Hash (H : Type) : Type := {
  Reset : H -> H;
  Write : H -> list byte -> H * option error;
  Sum : H -> list byte -> list byte
}.

(** One method call on the hash object, with its argument. *)
Inductive call : Type :=
| CallReset
| CallWrite (p : list byte)
| CallSum (b : list byte).

(** Code that talks to one hash object: the calls it makes, each with the
    continuation that receives the method's result. *)
Inductive hashM (A : Type) : Type :=
| Done (a : A)
| DoReset (k : hashM A)
| DoWrite (p : list byte) (k : option error -> hashM A)
| DoSum (b : list byte) (k : list byte -> hashM A).

Arguments Done {A} a.
Arguments DoReset {A} k.
Arguments DoWrite {A} p k.
Arguments DoSum {A} b k.

Module HashM.

Fixpoint bind {A B : Type} (m : hashM A) (f : A -> hashM B) : hashM B :=
  match m with
  | Done a => f a
  | DoReset k => DoReset (bind k f)
  | DoWrite p k => DoWrite p (fun e => bind (k e) f)
  | DoSum b k => DoSum b (fun d => bind (k d) f)
  end.

Definition reset : hashM unit := DoReset (Done tt).
Definition write (p : list byte) : hashM (option error) := DoWrite p Done.
Definition sum (b : list byte) : hashM (list byte) := DoSum b Done.

(** Running the code on a hash object in state [h]: the result together
    with the calls made, in order. *)
Fixpoint run {H : Type} `{Hash H} {A : Type} (m : hashM A) (h : H)
  : A * list call :=
  match m with
  | Done a => (a, [])
  | DoReset k =>
      let (a, t) := run k (Reset h) in (a, CallReset :: t)
  | DoWrite p k =>
      let (h', e) := Write h p in
      let (a, t) := run (k e) h' in (a, CallWrite p :: t)
  | DoSum b k =>
      let (a, t) := run (k (Sum h b)) h in (a, CallSum b :: t)
  end.

End HashM.

Notation "x <- m ;; k" := (HashM.bind m (fun x => k))
  (at level 61, m at next level, right associativity).
Notation "m ;;; k" := (HashM.bind m (fun _ => k))
  (at level 61, right associativity).

(** ** [encoding/binary] *)

(** [binary.LittleEndian.PutUint64]: byte [i] is [byte(v >> (8*i))]. *)
Definition LittleEndian_PutUint64 (v : Z) : list byte :=
  map (fun i => U8.of_Z (Z.shiftr v (8 * Z.of_nat i))) (seq 0 8).

(** [binary.Write(w, binary.LittleEndian, data)] for an [int64]: one
    [Write] of the eight bytes of [uint64(data)]. *)
Definition binary_Write_LittleEndian (data : Z) : hashM (option error) :=
  HashM.write (LittleEndian_PutUint64 (uint64 data)).

(** Reading eight little-endian bytes back as an unsigned number. *)
Definition LittleEndian_Uint64 (bs : list byte) : Z :=
  fold_right (fun b acc => U8.to_Z b + 256 * acc) 0 bs.

(** ** Data model *)

Record Worker (H : Type) : Type := mkWorker {
  difficulty : Z;
  getHash : unit -> H;
  maxWait : Z
}.

Arguments mkWorker {H} _ _ _.
Arguments difficulty {H} _.
Arguments getHash {H} _ _.
Arguments maxWait {H} _.

Record PoWork : Type := mkPoWork {
  msg : list byte;
  proof : Z;
  requiredIterations : Z
}.

(** The pair of a [PoWork] pointer and an [error] that the search returns
    and that the asynchronous entry points send. *)
Definition outcome : Type := option PoWork * option error.

(** ** Configuration *)

Section Engine.

Context {H : Type} `{Hash H}.

(** [NewWorker], given the constructor [sha512.New] of the default hash. *)
Definition NewWorker (sha512_New : unit -> H) : Worker H :=
  mkWorker 10 sha512_New 5000.

Definition SetDifficulty (p : Worker H) (difficulty : Z)
  : Worker H * option error :=
  let p := mkWorker difficulty (getHash p) (maxWait p) in
  if difficulty <=? 0 then (p, Some ErrDifficulty) else (p, None).

Definition SetTimeout (p : Worker H) (milliseconds : Z)
  : Worker H * option error :=
  let p := mkWorker (difficulty p) (getHash p) milliseconds in
  if maxWait p <? 0 then (p, Some ErrTimeout) else (p, None).

Definition SetHashGetter (p : Worker H) (h : unit -> H) : Worker H :=
  mkWorker (difficulty p) h (maxWait p).

(** ** Validation *)

(** What [ValidatePoWork] does with the hash object it obtained. *)
Definition validateOn (pow : PoWork) (N : Z) : hashM (bool * option error) :=
  HashM.reset ;;;
  err <- HashM.write (msg pow) ;;
  match err with
  | Some e => Done (false, Some e)
  | None =>
      err <- binary_Write_LittleEndian (proof pow) ;;
      match err with
      | Some e => Done (false, Some e)
      | None =>
          sum <- HashM.sum [] ;;
          Done (scanSum sum N)
      end
  end.

Definition ValidatePoWork (p : Worker H) (pow : PoWork)
  : bool * option error :=
  let hash := getHash p tt in
  fst (HashM.run (validateOn pow (difficulty p)) hash).

(** The calls [ValidatePoWork] makes on the hash object it obtained. *)
Definition hashCalls (p : Worker H) (pow : PoWork) : list call :=
  snd (HashM.run (validateOn pow (difficulty p)) (getHash p tt)).

(** ** Search *)

(** [time.Millisecond], a [time.Duration] in nanoseconds. *)
Definition Millisecond : Z := 1000000.

(** What the loop can observe of its timer: [elapsed k] is the time, in
    nanoseconds, since the call to [time.After] at the moment of the
    [k]-th [select], and [delivered k] tells whether the runtime has put
    the timer's value on the channel by then.  The runtime sends the
    value at some moment of its own choosing after the duration. *)
Record Timer : Type := mkTimer {
  elapsed : nat -> N;
  delivered : nat -> bool
}.

(** [time.After d] seen from the loop: the [k]-th [select] takes the
    timeout case when the channel holds the value, which the runtime
    sends no earlier than [d] nanoseconds after the call. *)
Definition time_After (d : Z) (timer : Timer) : nat -> bool :=
  fun k => (d <=? Z.of_N (elapsed timer k)) && delivered timer k.

(** The [for] loop of [DoProofFor].  [fuel] bounds the number of
    iterations, [None] means the bound was reached; [k] counts the
    [select] statements executed so far. *)
Fixpoint searchLoop (fuel : nat) (p : Worker H) (timeoutChannel : nat -> bool)
    (k : nat) (toR : PoWork) : option outcome :=
  match fuel with
  | O => None
  | S fuel' =>
      let (res, err) := ValidatePoWork p toR in
      match err with
      | Some e => Some (None, Some e)
      | None =>
          if res then Some (Some toR, None)
          else
            let toR := mkPoWork (msg toR) (proof toR)
                                (incr (requiredIterations toR)) in
            let toR := mkPoWork (msg toR) (incr (proof toR))
                                (requiredIterations toR) in
            if timeoutChannel k then Some (None, Some ErrTimedOut)
            else searchLoop fuel' p timeoutChannel (S k) toR
      end
  end.

Definition DoProofFor (p : Worker H) (timer : Timer) (fuel : nat)
    (msg : list byte) : option outcome :=
  let toR := mkPoWork msg 0 0 in
  let timeoutChannel :=
    time_After (wrap64 (maxWait p * Millisecond)) timer in
  searchLoop fuel p timeoutChannel 0 toR.

(** The candidate the loop examines in its iteration number [k]. *)
Definition candidate (msg : list byte) (k : nat) : PoWork :=
  mkPoWork msg (wrap64 (Z.of_nat k)) (wrap64 (Z.of_nat k)).

(** The state of the hash object after a successful [Write]. *)
Definition afterWrite (h : H) (bs : list byte) : H := fst (Write h bs).

(** How the loop can end when it starts at candidate [k]: at some
    candidate [j], all candidates before it having been rejected without
    the [select] taking the timeout case. *)
Inductive ends (p : Worker H) (tc : nat -> bool) (m : list byte)
  : nat -> outcome -> Prop :=
| ends_valid j :
    ValidatePoWork p (candidate m j) = (true, None) ->
    ends p tc m j (Some (candidate m j), None)
| ends_error j res e :
    ValidatePoWork p (candidate m j) = (res, Some e) ->
    ends p tc m j (None, Some e)
| ends_timeout j :
    ValidatePoWork p (candidate m j) = (false, None) ->
    tc j = true ->
    ends p tc m j (None, Some ErrTimedOut).

Definition rejected (p : Worker H) (m : list byte) (i : nat) : Prop :=
  ValidatePoWork p (candidate m i) = (false, None).

End Engine.

(** ** Two small hash objects to run the engine on *)

(** A hash whose digest is the bytes absorbed since the last [Reset]. *)
Record Transcript : Type := mkTranscript { absorbed : list byte }.

#[export] Instance Transcript_Hash : Hash Transcript := {
  Reset := fun _ => mkTranscript [];
  Write := fun h p => (mkTranscript (absorbed h ++ p), None);
  Sum := fun h b => b ++ absorbed h
}.

(** A one-byte additive checksum. *)
Record Checksum : Type := mkChecksum { total : Z }.

#[export] Instance Checksum_Hash : Hash Checksum := {
  Reset := fun _ => mkChecksum 0;
  Write := fun h p =>
    (mkChecksum (fold_left (fun a b => (a + U8.to_Z b) mod 256) p (total h)),
     None);
  Sum := fun h b => b ++ [U8.of_Z (total h)]
}.

(** A timer whose clock advances by one millisecond between two [select]s
    and whose value the runtime delivers without delay, and one whose value
    arrives only at the second [select]. *)
Definition tick : Timer :=
  mkTimer (fun k => (N.of_nat k * 1000000)%N) (fun _ => true).

Definition lateTick : Timer :=
  mkTimer (fun k => (N.of_nat k * 1000000)%N) (fun k => (1 <=? k)%nat).

(** A worker on the checksum with the defaults of [NewWorker] except for the
    difficulty, and one on the transcript that gives up at once. *)
Definition checksumWorker (difficulty : Z) : Worker Checksum :=
  fst (SetDifficulty (NewWorker (fun _ => mkChecksum 0)) difficulty).

Definition impatientWorker : Worker Transcript :=
  mkWorker 8 (fun _ => mkTranscript []) 0.

(** ** Asynchronous submission: goroutines and channels *)

Module Async.

(** Who sent a value: the goroutine started by the entry point, or any
    other goroutine that shares the channel. *)
Inductive party : Type := Searcher | Other.

(** A channel: its capacity, the values sent and not yet received, oldest
    first, and whether it has been closed. *)
Record chanState : Type := mkChan {
  cap : nat;
  queue : list (party * outcome);
  closed : bool
}.

Inductive entry : Type := ViaPrepareProof | ViaSendProofToChannel.

(** Where the goroutine of the entry point stands: before [DoProofFor]
    has returned, at the send with the pair to send, at the [close],
    after its last statement, or stopped by a run-time panic. *)
Inductive goroutine : Type :=
| Searching
| Sending (r : outcome)
| Closing
| Finished
| Panicked.

(** The statement after the send: [close(toR)] in [PrepareProof], the end
    of the function in [SendProofToChannel]. *)
Definition afterSend (fn : entry) : goroutine :=
  match fn with
  | ViaPrepareProof => Closing
  | ViaSendProofToChannel => Finished
  end.

(** The goroutine, the channel, what receivers have taken from the channel
    so far, and how many receives found the channel closed and empty. *)
Record system : Type := mkSystem {
  pc : goroutine;
  ch : chanState;
  received : list (party * outcome);
  closedReads : nat
}.

(** Everything sent on the channel, in order. *)
Definition sent (s : system) : list (party * outcome) :=
  received s ++ queue (ch s).

Definition bySearcher (v : party * outcome) : bool :=
  match fst v with
  | Searcher => true
  | Other => false
  end.

Section Steps.

Context {H : Type} `{Hash H}.
Variable p : Worker H.
Variable timer : Timer.
Variable m : list byte.
Variable fn : entry.

(** Steps of the goroutine [go func() { r, e := p.DoProofFor(msg);
    c <- {r, e}; close(c) }()], the [close] being there for
    [PrepareProof] only.  A send completes when the buffer has room or
    when a receiver is waiting on the empty channel. *)
Inductive run : system -> system -> Prop :=
| run_search fuel r c rcv z :
    DoProofFor p timer fuel m = Some r ->
    run (mkSystem Searching c rcv z) (mkSystem (Sending r) c rcv z)
| run_send_buffer r n q rcv z :
    (length q < n)%nat ->
    run (mkSystem (Sending r) (mkChan n q false) rcv z)
        (mkSystem (afterSend fn)
                  (mkChan n (q ++ [(Searcher, r)]) false) rcv z)
| run_send_handoff r n rcv z :
    run (mkSystem (Sending r) (mkChan n [] false) rcv z)
        (mkSystem (afterSend fn) (mkChan n [] false)
                  (rcv ++ [(Searcher, r)]) z)
| run_send_closed r n q rcv z :
    run (mkSystem (Sending r) (mkChan n q true) rcv z)
        (mkSystem Panicked (mkChan n q true) rcv z)
| run_close n q rcv z :
    run (mkSystem Closing (mkChan n q false) rcv z)
        (mkSystem Finished (mkChan n q true) rcv z)
| run_close_closed n q rcv z :
    run (mkSystem Closing (mkChan n q true) rcv z)
        (mkSystem Panicked (mkChan n q true) rcv z).

(** Steps of the other goroutines: receives at any time and, on the
    channel given to [SendProofToChannel], sends by the other producers
    that share it.  Nobody else closes the channel. *)
Inductive env : system -> system -> Prop :=
| env_recv g n v q b rcv z :
    env (mkSystem g (mkChan n (v :: q) b) rcv z)
        (mkSystem g (mkChan n q b) (rcv ++ [v]) z)
| env_recv_closed g n rcv z :
    env (mkSystem g (mkChan n [] true) rcv z)
        (mkSystem g (mkChan n [] true) rcv (S z))
| env_send_buffer g n q v rcv z :
    fn = ViaSendProofToChannel ->
    (length q < n)%nat ->
    env (mkSystem g (mkChan n q false) rcv z)
        (mkSystem g (mkChan n (q ++ [(Other, v)]) false) rcv z)
| env_send_handoff g n v rcv z :
    fn = ViaSendProofToChannel ->
    env (mkSystem g (mkChan n [] false) rcv z)
        (mkSystem g (mkChan n [] false) (rcv ++ [(Other, v)]) z).

(** States the system can be in, under any interleaving. *)
Inductive reachable (init : system) : system -> Prop :=
| reach_init : reachable init init
| reach_run s s' : reachable init s -> run s s' -> reachable init s'
| reach_env s s' : reachable init s -> env s s' -> reachable init s'.

End Steps.

(** [PrepareProof]: a fresh channel [make(chan ..., 1)] and the goroutine
    about to start. *)
Definition PrepareProof : system :=
  mkSystem Searching (mkChan 1 [] false) [] 0.

(** [SendProofToChannel] on the caller's channel [c], which may already
    hold values of other producers. *)
Definition SendProofToChannel (n : nat) (pending : list outcome)
    (isClosed : bool) : system :=
  mkSystem Searching (mkChan n (map (pair Other) pending) isClosed) [] 0.

(** What holds of the system of [PrepareProof] when the search returns
    [r]: the channel carries [r] and nothing else once the send is done,
    it is closed exactly when the goroutine has finished, the goroutine
    sends nothing but [r] and does not panic, and a receive reports the
    closed channel only after [r] has been taken. *)
Definition deliversOnce (r : outcome) (s : system) : Prop :=
  sent s = match pc s with
           | Closing | Finished => [(Searcher, r)]
           | _ => []
           end
  /\ closed (ch s) = match pc s with
                     | Finished => true
                     | _ => false
                     end
  /\ cap (ch s) = 1%nat
  /\ match pc s with
     | Sending r' => r' = r
     | Panicked => False
     | _ => True
     end
  /\ (closedReads s <> 0%nat -> pc s = Finished /\ queue (ch s) = []).

(** What holds of the system of [SendProofToChannel] when the search
    returns [r]: among the values sent on the shared channel, the
    goroutine's own are [r], once, when it has finished and none before;
    the channel is closed only if it was when it was handed over; the
    goroutine never reaches a [close]. *)
Definition pushesOnce (r : outcome) (wasClosed : bool) (s : system) : Prop :=
  filter bySearcher (sent s) = match pc s with
                               | Finished => [(Searcher, r)]
                               | _ => []
                               end
  /\ closed (ch s) = wasClosed
  /\ match pc s with
     | Sending r' => r' = r
     | Closing => False
     | _ => True
     end.

End Async.

(** ** Accessors, the string entry point and [GetChannel] *)

(** A Go string is a sequence of bytes; [[]byte(s)] and [string(b)] copy
    them one for one. *)
Definition bytes_of_string (s : string) : list byte := list_byte_of_string s.
Definition string_of_bytes (b : list byte) : string := string_of_list_byte b.

Definition GetMessage (p : PoWork) : list byte := msg p.

Definition GetMessageString (p : PoWork) : string := string_of_bytes (msg p).

Section StringEntry.

Context {H : Type} `{Hash H}.

Definition DoProofForString (p : Worker H) (timer : Timer)
    (fuel : nat) (msg : string) : option outcome :=
  DoProofFor p timer fuel (bytes_of_string msg).

End StringEntry.

(** [GetChannel]: [make] of a channel with the given buffer; a negative
    size is a run-time panic ([None]). *)
Definition GetChannel (buffer : Z) : option Async.chanState :=
  if buffer <? 0 then None
  else Some (Async.mkChan (Z.to_nat buffer) [] false).

(** A hash whose message never validates: every digest of the transcript
    of a message that starts with [0xFF] starts with a one bit. *)
Definition stubbornWorker : Worker Transcript :=
  NewWorker (fun _ => mkTranscript []).

(** ** Several searches on one channel *)

From Stdlib Require Import Permutation.

Module Pool.

(** The goroutines started by successive calls of [SendProofToChannel]
    on the same channel, one per message, the channel, what has been
    received from it and the number of receives that found it closed. *)
Record state : Type := mkState {
  pcs : list Async.goroutine;
  ch : Async.chanState;
  received : list (Async.party * outcome);
  closedReads : nat
}.

Fixpoint update {A : Type} (i : nat) (x : A) (l : list A) : list A :=
  match l, i with
  | [], _ => []
  | _ :: t, O => x :: t
  | h :: t, S i' => h :: update i' x t
  end.

(** The results of the goroutines that have finished, [rs] listing the
    result of each search in the order of the messages. *)
Fixpoint finishedResults (gs : list Async.goroutine) (rs : list outcome)
  : list outcome :=
  match gs, rs with
  | g :: gs', r :: rs' =>
      match g with
      | Async.Finished => r :: finishedResults gs' rs'
      | _ => finishedResults gs' rs'
      end
  | _, _ => []
  end.

Section Steps.

Context {H : Type} `{Hash H}.
Variable p : Worker H.
Variable clocks : nat -> Timer.
Variable msgs : list (list byte).

(** A step of the goroutine number [i], which is the goroutine of
    [SendProofToChannel] on the message number [i], or a receive by
    the caller. *)
Inductive step : state -> state -> Prop :=
| step_run i m g g' gs c c' rcv rcv' z z' :
    nth_error gs i = Some g ->
    nth_error msgs i = Some m ->
    Async.run p (clocks i) m Async.ViaSendProofToChannel
              (Async.mkSystem g c rcv z) (Async.mkSystem g' c' rcv' z') ->
    step (mkState gs c rcv z) (mkState (update i g' gs) c' rcv' z')
| step_recv gs n v q b rcv z :
    step (mkState gs (Async.mkChan n (v :: q) b) rcv z)
         (mkState gs (Async.mkChan n q b) (rcv ++ [v]) z)
| step_recv_closed gs n rcv z :
    step (mkState gs (Async.mkChan n [] true) rcv z)
         (mkState gs (Async.mkChan n [] true) rcv (S z)).

Inductive reachable (init : state) : state -> Prop :=
| reach_init : reachable init init
| reach_step s s' : reachable init s -> step s s' -> reachable init s'.

(** All the searches submitted on the channel [c], none started yet. *)
Definition start (c : Async.chanState) : state :=
  mkState (map (fun _ => Async.Searching) msgs) c [] 0.

End Steps.

End Pool.

(** * Properties *)

(** ** Arithmetic of the wrap-around *)

Lemma two63 : 2 ^ 63 = 9223372036854775808.
Proof. reflexivity. Qed.

Lemma two64 : 2 ^ 64 = 18446744073709551616.
Proof. reflexivity. Qed.

Ltac unwrap :=
  unfold incr, decr, wrap64, uint64, is_int, min_int, max_int in *;
  rewrite ?two63, ?two64 in *.

Lemma wrap64_id (z : Z) : is_int z -> wrap64 z = z.
Proof. unwrap. intros Hz. rewrite Z.mod_small; lia. Qed.

Lemma wrap64_is_int (z : Z) : is_int (wrap64 z).
Proof.
  unwrap.
  pose proof (Z.mod_pos_bound (z + 9223372036854775808) 18446744073709551616).
  lia.
Qed.

Lemma wrap64_add_l (a b : Z) : wrap64 (wrap64 a + b) = wrap64 (a + b).
Proof.
  unwrap.
  replace ((a + 9223372036854775808) mod 18446744073709551616
           - 9223372036854775808 + b + 9223372036854775808)
    with ((a + 9223372036854775808) mod 18446744073709551616 + b) by lia.
  rewrite Z.add_mod_idemp_l by lia. f_equal. f_equal. lia.
Qed.

Lemma incr_wrap64 (z : Z) : incr (wrap64 z) = wrap64 (z + 1).
Proof. unfold incr. apply wrap64_add_l. Qed.

Lemma decr_wrap64 (z : Z) : decr (wrap64 z) = wrap64 (z - 1).
Proof. unfold decr. apply (wrap64_add_l z (-1)). Qed.

(** A counter that started at or below zero cannot come back to zero within
    fewer than [2 ^ 64] decrements. *)
Lemma wrap64_nonzero (z : Z) : - 2 ^ 64 < z < 0 -> wrap64 z <> 0.
Proof.
  unwrap. intros Hz Heq.
  assert (E : (z + 9223372036854775808) mod 18446744073709551616
              = 9223372036854775808) by lia.
  destruct (Z_lt_le_dec (z + 9223372036854775808) 0) as [Hneg | Hpos].
  - replace (z + 9223372036854775808)
      with (z + 9223372036854775808 + 18446744073709551616
            + (-1) * 18446744073709551616) in E by lia.
    rewrite Z.mod_add in E by lia.
    rewrite Z.mod_small in E; lia.
  - rewrite Z.mod_small in E; lia.
Qed.

(** ** The two loops read the digest bit by bit *)

Lemma byte_msb (x : byte) :
  Byte.eqb (U8.shr (U8.shl x 1) 1) x = negb (U8.bit x 7).
Proof. destruct x; reflexivity. Qed.

Lemma firstn_byteBits_shl (x : byte) (k : nat) :
  (k < 8)%nat ->
  firstn (S k) (byteBits x) = U8.bit x 7 :: firstn k (byteBits (U8.shl x 1)).
Proof.
  intros Hk.
  do 8 (destruct k as [| k]; [destruct x; reflexivity |]).
  lia.
Qed.

Lemma scanByte_scanBits (k : nat) :
  forall x N, (k <= 8)%nat ->
    scanByte k x N = scanBits (firstn k (byteBits x)) N.
Proof.
  induction k as [| k IH]; intros x N Hk.
  - reflexivity.
  - rewrite firstn_byteBits_shl by lia.
    cbn [scanByte scanBits]. rewrite byte_msb.
    destruct (U8.bit x 7); cbn [negb].
    + reflexivity.
    + destruct (decr N =? 0); [reflexivity | apply IH; lia].
Qed.

Lemma scanBits_app (a b : list bool) :
  forall N,
    scanBits (a ++ b) N =
    match scanBits a N with
    | Returned res => Returned res
    | Carry N' => scanBits b N'
    end.
Proof.
  induction a as [| x a IH]; intros N; cbn [app scanBits].
  - reflexivity.
  - destruct x; [reflexivity |].
    destruct (decr N =? 0); [reflexivity | apply IH].
Qed.

Lemma scanSum_scanBits (D : list byte) :
  forall N, scanSum D N = finish (scanBits (digestBits D) N).
Proof.
  induction D as [| x D IH]; intros N.
  - reflexivity.
  - cbn [scanSum digestBits flat_map]. fold (digestBits D).
    rewrite scanBits_app, scanByte_scanBits by lia.
    change (firstn 8 (byteBits x)) with (byteBits x).
    destruct (scanBits (byteBits x) N); [reflexivity | apply IH].
Qed.

Lemma digestBits_length (D : list byte) :
  Z.of_nat (length (digestBits D)) = bitlength D.
Proof.
  unfold bitlength. induction D as [| x D IH].
  - reflexivity.
  - cbn [digestBits flat_map]. fold (digestBits D).
    rewrite length_app. cbn [length byteBits map]. lia.
Qed.

(** ** The scan on a list of bits *)

(** Enough bits for a positive difficulty: the answer is whether the first
    [N] bits are zero. *)
Lemma scanBits_enough (bs : list bool) :
  forall N, 1 <= N <= max_int -> N <= Z.of_nat (length bs) ->
    scanBits bs N = Returned (forallb negb (firstn (Z.to_nat N) bs)).
Proof.
  induction bs as [| b bs IH]; intros N HN Hlen.
  - cbn [length] in Hlen. lia.
  - replace (Z.to_nat N) with (S (Z.to_nat (N - 1))) by lia.
    cbn [scanBits firstn forallb].
    destruct b; cbn [negb andb]; [reflexivity |].
    assert (E : decr N = N - 1).
    { unfold decr. apply wrap64_id. unwrap. lia. }
    rewrite E.
    destruct (Z.eqb_spec (N - 1) 0) as [Hz | Hnz].
    + rewrite Hz. reflexivity.
    + apply IH; [unwrap; lia |]. cbn [length] in Hlen. lia.
Qed.

(** Fewer bits than a positive difficulty asks for. *)
Lemma scanBits_short (bs : list bool) :
  forall N, Z.of_nat (length bs) < N <= max_int ->
    scanBits bs N =
    if forallb negb bs then Carry (N - Z.of_nat (length bs))
    else Returned false.
Proof.
  induction bs as [| b bs IH]; intros N HN.
  - cbn. f_equal. lia.
  - cbn [scanBits forallb length] in *.
    destruct b; cbn [negb andb]; [reflexivity |].
    assert (E : decr N = N - 1).
    { unfold decr. apply wrap64_id. unwrap. lia. }
    rewrite E.
    destruct (Z.eqb_spec (N - 1) 0) as [Hz | Hnz]; [lia |].
    rewrite IH by lia.
    destruct (forallb negb bs); [f_equal; lia | reflexivity].
Qed.

(** A difficulty at or below zero. *)
Lemma scanBits_nonpositive (bs : list bool) :
  forall M, M <= 0 -> - 2 ^ 64 < M - Z.of_nat (length bs) ->
    scanBits bs (wrap64 M) =
    if forallb negb bs then Carry (wrap64 (M - Z.of_nat (length bs)))
    else Returned false.
Proof.
  induction bs as [| b bs IH]; intros M HM Hlen.
  - cbn. do 2 f_equal. lia.
  - cbn [scanBits forallb length] in *.
    destruct b; cbn [negb andb]; [reflexivity |].
    rewrite decr_wrap64.
    destruct (Z.eqb_spec (wrap64 (M - 1)) 0) as [Hz | Hnz].
    + exfalso. apply (wrap64_nonzero (M - 1)); [lia | assumption].
    + rewrite IH by lia.
      destruct (forallb negb bs); [do 2 f_equal; lia | reflexivity].
Qed.

Lemma scanSum_nonpositive (D : list byte) (N : Z) :
  min_int <= N <= 0 -> bitlength D < 2 ^ 63 ->
  scanSum D N =
  if allZero D then (false, Some ErrBufferOverrun) else (false, None).
Proof.
  intros HN HD.
  rewrite scanSum_scanBits, <- (wrap64_id N) by (unwrap; lia).
  rewrite scanBits_nonpositive.
  - unfold allZero. destruct (forallb negb (digestBits D)); reflexivity.
  - lia.
  - rewrite digestBits_length. unwrap. lia.
Qed.

(** ** The validity predicate *)

(** C1. For a difficulty [N] between 1 and the number of bits of the digest,
    the scan answers [(true, nil)] exactly when the first [N] bits of the
    digest, bytes in order and most significant bit first, are all zero, and
    it returns no error. *)
Theorem scan_counts_leading_zero_bits (D : list byte) (N : Z) :
  1 <= N <= bitlength D -> N <= max_int ->
  (scanSum D N = (true, None) <-> leadingZeros (Z.to_nat N) D = true)
  /\ snd (scanSum D N) = None.
Proof.
  intros HN Hmax.
  rewrite scanSum_scanBits, scanBits_enough.
  - unfold leadingZeros. cbn [finish snd]. split; [| reflexivity].
    split; [intros E; injection E; auto | intros E; rewrite E; reflexivity].
  - lia.
  - rewrite digestBits_length. lia.
Qed.

Lemma scan_counts_leading_zero_bits_witness :
  (scanSum [x00; x1f] 11 = (true, None)
   <-> leadingZeros (Z.to_nat 11) [x00; x1f] = true)
  /\ snd (scanSum [x00; x1f] 11) = None.
Proof.
  apply (scan_counts_leading_zero_bits [x00; x1f] 11).
  - unfold bitlength. simpl. lia.
  - unfold max_int. lia.
Defined.

(** C3, as stated, fails: a digest with a one bit is plainly rejected even
    when the difficulty exceeds its length. *)
Lemma scan_short_digest_plain_false :
  bitlength [xff] < 9 /\ scanSum [xff] 9 = (false, None).
Proof. split; [unfold bitlength; simpl; lia | reflexivity]. Qed.

(** C3, amended. For a difficulty [N] above the number of bits of the digest,
    the scan never succeeds: it signals the buffer overrun exactly when every
    bit of the digest is zero, and answers a plain [false] as soon as the
    digest has a one bit. *)
Theorem scan_short_digest (D : list byte) (N : Z) :
  bitlength D < N -> N <= max_int ->
  scanSum D N =
  if allZero D then (false, Some ErrBufferOverrun) else (false, None).
Proof.
  intros HN Hmax.
  rewrite scanSum_scanBits, scanBits_short.
  - unfold allZero. destruct (forallb negb (digestBits D)); reflexivity.
  - rewrite digestBits_length. lia.
Qed.

Lemma scan_short_digest_witness :
  scanSum [x00; x00] 17 =
  if allZero [x00; x00] then (false, Some ErrBufferOverrun) else (false, None).
Proof.
  apply (scan_short_digest [x00; x00] 17).
  - unfold bitlength. simpl. lia.
  - unfold max_int. lia.
Defined.

(** C8, as stated, fails: with difficulty 0 the all-zero byte is not
    accepted, the scan runs off the digest. *)
Lemma scan_zero_difficulty_rejects :
  scanSum [x00] 0 = (false, Some ErrBufferOverrun).
Proof. reflexivity. Qed.

(** C8, amended. For difficulty 0 the scan never succeeds (on a digest of
    fewer than [2 ^ 64] bits): the counter is decremented before it is
    compared with zero, so the scan answers a plain [false] when the digest
    has a one bit and the buffer overrun otherwise. *)
Theorem scan_zero_difficulty (D : list byte) :
  bitlength D < 2 ^ 64 ->
  scanSum D 0 =
  if allZero D then (false, Some ErrBufferOverrun) else (false, None).
Proof.
  intros HD.
  rewrite scanSum_scanBits.
  change 0 with (wrap64 0) at 1.
  rewrite scanBits_nonpositive.
  - unfold allZero. destruct (forallb negb (digestBits D)); reflexivity.
  - lia.
  - rewrite digestBits_length. lia.
Qed.

Lemma scan_zero_difficulty_witness :
  scanSum [x00; x80] 0 =
  if allZero [x00; x80] then (false, Some ErrBufferOverrun) else (false, None).
Proof.
  apply (scan_zero_difficulty [x00; x80]).
  unfold bitlength. simpl. lia.
Defined.

(** ** What [ValidatePoWork] computes *)

Section EngineFacts.

Context {H : Type} `{Hash H}.

Lemma ValidatePoWork_unfold (p : Worker H) (pow : PoWork) :
  ValidatePoWork p pow =
  let h0 := Reset (getHash p tt) in
  match snd (Write h0 (msg pow)) with
  | Some e => (false, Some e)
  | None =>
      let h1 := afterWrite h0 (msg pow) in
      let nonce := LittleEndian_PutUint64 (uint64 (proof pow)) in
      match snd (Write h1 nonce) with
      | Some e => (false, Some e)
      | None => scanSum (Sum (afterWrite h1 nonce) []) (difficulty p)
      end
  end.
Proof.
  unfold ValidatePoWork, validateOn, binary_Write_LittleEndian, afterWrite.
  unfold HashM.reset, HashM.write, HashM.sum.
  cbn [HashM.bind HashM.run].
  destruct (Write (Reset (getHash p tt)) (msg pow)) as [h1 [e1 |]];
    cbn [HashM.bind HashM.run fst snd]; [reflexivity |].
  destruct (Write h1 (LittleEndian_PutUint64 (uint64 (proof pow))))
    as [h2 [e2 |]]; cbn [HashM.bind HashM.run fst snd]; [reflexivity |].
  destruct (scanSum (Sum h2 []) (difficulty p)); reflexivity.
Qed.

(** Only the message and the nonce of a candidate matter. *)
Lemma ValidatePoWork_iterations (p : Worker H) (m : list byte) (n i j : Z) :
  ValidatePoWork p (mkPoWork m n i) = ValidatePoWork p (mkPoWork m n j).
Proof. rewrite !ValidatePoWork_unfold. reflexivity. Qed.

(** ** The search loop *)

Lemma candidate_0 (m : list byte) : candidate m 0 = mkPoWork m 0 0.
Proof. reflexivity. Qed.

Lemma candidate_S (m : list byte) (k : nat) :
  mkPoWork m (incr (proof (candidate m k)))
           (incr (requiredIterations (candidate m k)))
  = candidate m (S k).
Proof.
  unfold candidate. cbn [proof requiredIterations].
  rewrite incr_wrap64, Nat2Z.inj_succ. reflexivity.
Qed.

Lemma searchLoop_ends (p : Worker H) (tc : nat -> bool) (m : list byte) :
  forall fuel k out,
    searchLoop fuel p tc k (candidate m k) = Some out ->
    exists j, (k <= j < k + fuel)%nat
              /\ (forall i, (k <= i < j)%nat -> rejected p m i)
              /\ ends p tc m j out.
Proof.
  induction fuel as [| fuel IH]; intros k out Hrun; [discriminate |].
  cbn [searchLoop] in Hrun.
  destruct (ValidatePoWork p (candidate m k)) as [res [e |]] eqn:Hv.
  - injection Hrun as <-. exists k. split; [lia |]. split; [intros; lia |].
    eapply ends_error; eassumption.
  - destruct res.
    + injection Hrun as <-. exists k. split; [lia |].
      split; [intros; lia |]. apply ends_valid; assumption.
    + cbn [msg proof requiredIterations] in Hrun.
      change (msg (candidate m k)) with m in Hrun.
      rewrite candidate_S in Hrun.
      destruct (tc k) eqn:Htc.
      * injection Hrun as <-. exists k. split; [lia |].
        split; [intros; lia |]. apply ends_timeout; assumption.
      * apply IH in Hrun. destruct Hrun as (j & Hj & Hrej & Hend).
        exists j. split; [lia |]. split; [| assumption].
        intros i Hi. destruct (Nat.eq_dec i k) as [-> | Hne];
          [exact Hv | apply Hrej; lia].
Qed.

Lemma DoProofFor_ends (p : Worker H) (timer : Timer) (fuel : nat)
    (m : list byte) (out : outcome) :
  DoProofFor p timer fuel m = Some out ->
  exists j, (j < fuel)%nat
            /\ (forall i, (i < j)%nat -> rejected p m i)
            /\ ends p (time_After (wrap64 (maxWait p * Millisecond)) timer)
                    m j out.
Proof.
  unfold DoProofFor. rewrite <- candidate_0. intros Hrun.
  apply searchLoop_ends in Hrun. destruct Hrun as (j & Hj & Hrej & Hend).
  exists j. split; [lia |]. split; [| assumption].
  intros i Hi. apply Hrej. lia.
Qed.

(** A successful search stops at the first candidate that validates. *)
Lemma DoProofFor_success (p : Worker H) (timer : Timer) (fuel : nat)
    (m : list byte) (P : PoWork) (e : option error) :
  DoProofFor p timer fuel m = Some (Some P, e) ->
  exists j, (j < fuel)%nat /\ P = candidate m j /\ e = None
            /\ ValidatePoWork p (candidate m j) = (true, None)
            /\ (forall i, (i < j)%nat -> rejected p m i).
Proof.
  intros Hrun. apply DoProofFor_ends in Hrun.
  destruct Hrun as (j & Hj & Hrej & Hend).
  inversion Hend; subst. exists j. auto.
Qed.

End EngineFacts.

(** ** The timer in the search *)

Section SearchFacts.

Context {H : Type} `{Hash H}.
Variable p : Worker H.
Variable tc : nat -> bool.
Variable m : list byte.

(** Between its start and the candidate at which it ends, the loop saw
    its [select]s not taking the timeout case. *)
Lemma searchLoop_not_due :
  forall fuel k out,
    searchLoop fuel p tc k (candidate m k) = Some out ->
    exists j, (k <= j < k + fuel)%nat
              /\ (forall i, (k <= i < j)%nat ->
                    rejected p m i /\ tc i = false)
              /\ ends p tc m j out.
Proof.
  induction fuel as [| fuel IH]; intros k out Hrun; [discriminate |].
  cbn [searchLoop] in Hrun.
  destruct (ValidatePoWork p (candidate m k)) as [res [e |]] eqn:Hv.
  - injection Hrun as <-. exists k. split; [lia |]. split; [intros; lia |].
    eapply ends_error; eassumption.
  - destruct res.
    + injection Hrun as <-. exists k. split; [lia |].
      split; [intros; lia |]. apply ends_valid; assumption.
    + cbn [msg proof requiredIterations] in Hrun.
      change (msg (candidate m k)) with m in Hrun.
      rewrite candidate_S in Hrun.
      destruct (tc k) eqn:Htc.
      * injection Hrun as <-. exists k. split; [lia |].
        split; [intros; lia |]. apply ends_timeout; assumption.
      * apply IH in Hrun. destruct Hrun as (j & Hj & Hrej & Hend).
        exists j. split; [lia |]. split; [| assumption].
        intros i Hi. destruct (Nat.eq_dec i k) as [-> | Hne];
          [split; [exact Hv | exact Htc] | apply Hrej; lia].
Qed.

(** Conversely, the loop gets to the first candidate at which it can
    end, given the budget for it. *)
Lemma searchLoop_reaches :
  forall fuel k j out,
    (k <= j < k + fuel)%nat ->
    (forall i, (k <= i < j)%nat -> rejected p m i /\ tc i = false) ->
    ends p tc m j out ->
    searchLoop fuel p tc k (candidate m k) = Some out.
Proof.
  induction fuel as [| fuel IH]; intros k j out Hj Hrej Hend; [lia |].
  cbn [searchLoop].
  destruct (Nat.eq_dec k j) as [-> | Hne].
  - inversion Hend as [j' Hv | j' res e Hv | j' Hv Htc]; subst;
      rewrite Hv; [reflexivity | reflexivity |].
    cbn [msg proof requiredIterations]. rewrite Htc. reflexivity.
  - destruct (Hrej k ltac:(lia)) as [Hv Htc].
    unfold rejected in Hv. rewrite Hv.
    cbn [msg proof requiredIterations].
    change (msg (candidate m k)) with m.
    rewrite candidate_S, Htc.
    apply (IH (S k) j out); [lia | | assumption].
    intros i Hi. apply Hrej. lia.
Qed.

(** Once a [select] takes the timeout case the loop is over. *)
Lemma searchLoop_due :
  forall n k toR,
    tc (k + n)%nat = true ->
    exists out, searchLoop (S n) p tc k toR = Some out.
Proof.
  induction n as [| n IH]; intros k toR Hdue.
  - rewrite Nat.add_0_r in Hdue. cbn [searchLoop].
    destruct (ValidatePoWork p toR) as [[|] [e |]]; eauto.
    rewrite Hdue. eauto.
  - cbn [searchLoop].
    destruct (ValidatePoWork p toR) as [[|] [e |]]; eauto.
    destruct (tc k); eauto.
    apply IH. rewrite <- Hdue. f_equal. lia.
Qed.

(** Only the answers of [ValidatePoWork] and of the [select]s matter. *)
Lemma searchLoop_ext (p' : Worker H) (tc' : nat -> bool) :
  (forall pow, ValidatePoWork p pow = ValidatePoWork p' pow) ->
  (forall k, tc k = tc' k) ->
  forall fuel k toR,
    searchLoop fuel p tc k toR = searchLoop fuel p' tc' k toR.
Proof.
  intros Hv Htc. induction fuel as [| fuel IH]; intros k toR;
    [reflexivity |].
  cbn [searchLoop]. rewrite <- Hv, <- Htc.
  destruct (ValidatePoWork p toR) as [[|] [e |]]; try reflexivity.
  destruct (tc k); [reflexivity | apply IH].
Qed.

End SearchFacts.

(** A duration at or below zero has elapsed at every [select]: only the
    delivery of the value is left to wait for. *)
Lemma time_After_nonpositive (d : Z) (timer : Timer) (k : nat) :
  d <= 0 -> time_After d timer k = delivered timer k.
Proof.
  intros Hd. unfold time_After.
  destruct (Z.leb_spec d (Z.of_N (elapsed timer k))) as [_ | Hlt];
    [reflexivity | lia].
Qed.

(** ** The synchronous search *)

(** C2. A proof returned by the synchronous search passes [ValidatePoWork]
    again under the same worker: the answer is [true] with a [nil] error. *)
Theorem found_proof_validates {H : Type} `{Hash H} (p : Worker H)
    (timer : Timer) (fuel : nat) (m : list byte) (P : PoWork)
    (e : option error) :
  DoProofFor p timer fuel m = Some (Some P, e) ->
  ValidatePoWork p P = (true, None) /\ e = None.
Proof.
  intros Hrun. apply DoProofFor_success in Hrun.
  destruct Hrun as (j & _ & -> & -> & Hv & _). auto.
Qed.

Lemma found_proof_validates_witness :
  ValidatePoWork (checksumWorker 8) (mkPoWork [xfd] 3 3) = (true, None)
  /\ @None error = None.
Proof.
  apply (found_proof_validates (checksumWorker 8) tick 10 [xfd]).
  vm_compute. reflexivity.
Defined.

(** C5, as stated, fails: with a timeout of 0 and a timer whose value the
    runtime delivers at once, a search whose first candidate is rejected
    ends with the time-out error. *)
Lemma zero_timeout_times_out :
  maxWait impatientWorker = 0
  /\ DoProofFor impatientWorker tick 1 [xff] = Some (None, Some ErrTimedOut).
Proof. split; vm_compute; reflexivity. Qed.

(** C5, amended. With a timeout of 0 the duration has elapsed from the
    start, so the clock plays no part: the search ends at the first
    candidate that validates (the proof), that makes the predicate fail (its
    error), or that is rejected while the timer's value has been delivered
    by the check that follows (the time-out error), the earlier candidates
    having been rejected with the value not yet delivered. *)
Theorem zero_timeout_ends_on_delivery {H : Type} `{Hash H} (p : Worker H)
    (timer : Timer) (fuel : nat) (m : list byte) (out : outcome) :
  maxWait p = 0 ->
  (DoProofFor p timer fuel m = Some out
   <-> exists j, (j < fuel)%nat
         /\ (forall i, (i < j)%nat ->
               ValidatePoWork p (candidate m i) = (false, None)
               /\ delivered timer i = false)
         /\ ends p (delivered timer) m j out).
Proof.
  intros Hw. unfold DoProofFor. rewrite Hw, <- candidate_0.
  change (wrap64 (0 * Millisecond)) with 0.
  rewrite (searchLoop_ext p _ p (delivered timer))
    by (reflexivity || (intros k; apply time_After_nonpositive; lia)).
  split.
  - intros Hrun. apply searchLoop_not_due in Hrun.
    destruct Hrun as (j & Hj & Hrej & Hend).
    exists j. split; [lia |]. split; [| exact Hend].
    intros i Hi. apply Hrej. lia.
  - intros (j & Hj & Hrej & Hend).
    apply (searchLoop_reaches p _ m fuel 0 j); [lia | | exact Hend].
    intros i Hi. apply Hrej. lia.
Qed.

Lemma zero_timeout_ends_on_delivery_witness :
  DoProofFor (fst (SetTimeout (checksumWorker 8) 0)) lateTick 5 [xfd]
  = Some (None, Some ErrTimedOut).
Proof.
  apply (zero_timeout_ends_on_delivery
           (fst (SetTimeout (checksumWorker 8) 0)) lateTick 5 [xfd]
           (None, Some ErrTimedOut)); [reflexivity |].
  exists 1%nat. split; [lia |]. split.
  - intros i Hi. destruct i as [| i]; [| lia].
    split; vm_compute; reflexivity.
  - apply ends_timeout; vm_compute; reflexivity.
Defined.

(** C7. When the search succeeds within [2 ^ 63] iterations (the counters do
    not overflow), the proof carries the message, its nonce is the least
    [n >= 0] whose candidate validates, every smaller nonce having been
    rejected, its iteration count is that same number of rejected
    candidates, and any other successful run of the same worker on the same
    message returns the same proof. *)
Theorem search_returns_least_nonce {H : Type} `{Hash H} (p : Worker H)
    (timer : Timer) (fuel : nat) (m : list byte) (P : PoWork) :
  DoProofFor p timer fuel m = Some (Some P, None) ->
  Z.of_nat fuel <= 2 ^ 63 ->
  msg P = m
  /\ 0 <= proof P
  /\ requiredIterations P = proof P
  /\ ValidatePoWork p P = (true, None)
  /\ (forall n it, 0 <= n < proof P ->
        ValidatePoWork p (mkPoWork m n it) = (false, None))
  /\ (forall timer' fuel' P',
        DoProofFor p timer' fuel' m = Some (Some P', None) -> P' = P).
Proof.
  intros Hrun Hfuel. apply DoProofFor_success in Hrun.
  destruct Hrun as (j & Hj & -> & _ & Hv & Hrej).
  assert (Ej : wrap64 (Z.of_nat j) = Z.of_nat j).
  { apply wrap64_id. unwrap. lia. }
  unfold candidate in *. cbn [msg proof requiredIterations]. rewrite Ej in *.
  repeat split; try lia; try assumption.
  - intros n it Hn.
    specialize (Hrej (Z.to_nat n)). unfold rejected, candidate in Hrej.
    rewrite wrap64_id, Z2Nat.id in Hrej by (unwrap; lia).
    rewrite (ValidatePoWork_iterations p m n it n). apply Hrej. lia.
  - intros timer' fuel' P' Hrun'. apply DoProofFor_success in Hrun'.
    destruct Hrun' as (j' & _ & -> & _ & Hv' & Hrej').
    destruct (Nat.lt_trichotomy j j') as [Hlt | [<- | Hgt]].
    + specialize (Hrej' j Hlt). unfold rejected, candidate in Hrej'.
      rewrite Ej in Hrej'. congruence.
    + unfold candidate. rewrite Ej. reflexivity.
    + specialize (Hrej j' Hgt). unfold rejected in Hrej. congruence.
Qed.

Lemma search_returns_least_nonce_witness :
  msg (mkPoWork [xfd] 3 3) = [xfd]
  /\ 0 <= proof (mkPoWork [xfd] 3 3)
  /\ requiredIterations (mkPoWork [xfd] 3 3) = proof (mkPoWork [xfd] 3 3)
  /\ ValidatePoWork (checksumWorker 8) (mkPoWork [xfd] 3 3) = (true, None)
  /\ (forall n it, 0 <= n < proof (mkPoWork [xfd] 3 3) ->
        ValidatePoWork (checksumWorker 8) (mkPoWork [xfd] n it)
        = (false, None))
  /\ (forall timer' fuel' P',
        DoProofFor (checksumWorker 8) timer' fuel' [xfd]
        = Some (Some P', None) -> P' = mkPoWork [xfd] 3 3).
Proof.
  apply (search_returns_least_nonce (checksumWorker 8) tick 10 [xfd]).
  - vm_compute. reflexivity.
  - rewrite two63. simpl. lia.
Defined.

(** ** Configuration *)

(** C6. [SetDifficulty] stores its argument and reports an error exactly
    when the argument is at most 0; [SetTimeout] stores its argument and
    reports an error exactly when it is negative; each leaves the two other
    fields of the worker as they were. *)
Theorem setters_store_then_report {H : Type} (p : Worker H) (n ms : Z) :
  (n <= 0 ->
     SetDifficulty p n
     = (mkWorker n (getHash p) (maxWait p), Some ErrDifficulty))
  /\ (0 < n ->
     SetDifficulty p n = (mkWorker n (getHash p) (maxWait p), None))
  /\ (ms < 0 ->
     SetTimeout p ms
     = (mkWorker (difficulty p) (getHash p) ms, Some ErrTimeout))
  /\ (0 <= ms ->
     SetTimeout p ms = (mkWorker (difficulty p) (getHash p) ms, None)).
Proof.
  unfold SetDifficulty, SetTimeout. cbn [maxWait].
  repeat split; intros Hc.
  - destruct (Z.leb_spec n 0); [reflexivity | lia].
  - destruct (Z.leb_spec n 0); [lia | reflexivity].
  - destruct (Z.ltb_spec ms 0); [reflexivity | lia].
  - destruct (Z.ltb_spec ms 0); [lia | reflexivity].
Qed.

Lemma setters_store_then_report_witness :
  SetDifficulty (checksumWorker 10) (-3)
  = (mkWorker (-3) (getHash (checksumWorker 10)) 5000, Some ErrDifficulty)
  /\ SetTimeout (checksumWorker 10) (-1)
     = (mkWorker 10 (getHash (checksumWorker 10)) (-1), Some ErrTimeout).
Proof.
  pose proof (setters_store_then_report (checksumWorker 10) (-3) (-1))
    as (Hd & _ & Ht & _).
  split; [apply Hd | apply Ht]; lia.
Defined.

(** ** A difficulty at or below zero *)

(** C10. With a stored difficulty at or below 0, the scan of any digest of
    fewer than [2 ^ 63] bits answers a plain [false] or the buffer overrun;
    so, with a hash whose digests are that short, [ValidatePoWork] never
    answers [true] and the search never returns a proof. *)
Theorem nonpositive_difficulty_never_valid {H : Type} `{Hash H}
    (p : Worker H) :
  min_int <= difficulty p <= 0 ->
  (forall h, bitlength (Sum h []) < 2 ^ 63) ->
  (forall D, bitlength D < 2 ^ 63 ->
             scanSum D (difficulty p) = (false, None)
             \/ scanSum D (difficulty p) = (false, Some ErrBufferOverrun))
  /\ (forall pow, fst (ValidatePoWork p pow) = false)
  /\ (forall timer fuel m P e,
        DoProofFor p timer fuel m <> Some (Some P, e)).
Proof.
  intros HN Hlen.
  assert (Hscan : forall D, bitlength D < 2 ^ 63 ->
             scanSum D (difficulty p) = (false, None)
             \/ scanSum D (difficulty p) = (false, Some ErrBufferOverrun)).
  { intros D HD. rewrite scanSum_nonpositive by auto.
    destruct (allZero D); auto. }
  assert (Hval : forall pow, fst (ValidatePoWork p pow) = false).
  { intros pow. rewrite ValidatePoWork_unfold. cbv zeta.
    destruct (snd (Write (Reset (getHash p tt)) (msg pow))); [reflexivity |].
    match goal with
    | |- context [snd (Write ?h ?bs)] => destruct (snd (Write h bs))
    end; [reflexivity |].
    match goal with
    | |- context [scanSum (Sum ?h []) _] =>
        destruct (Hscan (Sum h []) (Hlen h)) as [E | E]
    end; rewrite E; reflexivity. }
  repeat split; try assumption.
  intros timer fuel m P e Hrun.
  apply DoProofFor_success in Hrun.
  destruct Hrun as (j & _ & _ & _ & Hv & _).
  specialize (Hval (candidate m j)). rewrite Hv in Hval. discriminate.
Qed.

Lemma Checksum_digest_short (h : Checksum) : bitlength (Sum h []) < 2 ^ 63.
Proof. rewrite two63. unfold bitlength. cbn. lia. Qed.

Lemma nonpositive_difficulty_never_valid_witness :
  (forall D, bitlength D < 2 ^ 63 ->
             scanSum D (difficulty (checksumWorker 0)) = (false, None)
             \/ scanSum D (difficulty (checksumWorker 0))
                = (false, Some ErrBufferOverrun))
  /\ (forall pow, fst (ValidatePoWork (checksumWorker 0) pow) = false)
  /\ (forall timer fuel m P e,
        DoProofFor (checksumWorker 0) timer fuel m <> Some (Some P, e)).
Proof.
  apply (nonpositive_difficulty_never_valid (checksumWorker 0)).
  - unfold min_int. simpl. lia.
  - exact Checksum_digest_short.
Defined.

(** ** The bytes given to the hash *)

Lemma U8_to_of_Z (z : Z) : U8.to_Z (U8.of_Z z) = z mod 256.
Proof.
  unfold U8.to_Z, U8.of_Z.
  pose proof (Z.mod_pos_bound z 256 ltac:(lia)) as Hb.
  destruct (Byte.of_N (Z.to_N (z mod 256))) as [b |] eqn:E.
  - apply Byte.to_of_N in E. rewrite E. apply Z2N.id. lia.
  - apply Byte.of_N_None_iff in E. lia.
Qed.

Lemma LittleEndian_roundtrip (n : nat) :
  forall v,
    LittleEndian_Uint64
      (map (fun i => U8.of_Z (Z.shiftr v (8 * Z.of_nat i))) (seq 0 n))
    = v mod 2 ^ (8 * Z.of_nat n).
Proof.
  induction n as [| n IH]; intros v.
  - cbn. symmetry. apply Z.mod_1_r.
  - cbn [seq map]. rewrite <- seq_shift, map_map.
    rewrite (map_ext _ (fun i => U8.of_Z (Z.shiftr (Z.shiftr v 8)
                                            (8 * Z.of_nat i)))).
    + cbn [LittleEndian_Uint64 fold_right].
      fold (LittleEndian_Uint64
              (map (fun i => U8.of_Z (Z.shiftr (Z.shiftr v 8)
                                                (8 * Z.of_nat i)))
                   (seq 0 n))).
      rewrite IH, U8_to_of_Z. change (8 * Z.of_nat 0) with 0.
      rewrite Z.shiftr_0_r.
      rewrite Z.shiftr_div_pow2 by lia.
      replace (8 * Z.of_nat (S n)) with (8 + 8 * Z.of_nat n) by lia.
      rewrite Z.pow_add_r by lia.
      change (2 ^ 8) with 256.
      rewrite Z.rem_mul_r by lia. reflexivity.
    + intros i. rewrite Z.shiftr_shiftr by lia. do 2 f_equal. lia.
Qed.


(** ** Asynchronous submission *)

Section SearchFuel.

Context {H : Type} `{Hash H}.

(** The step budget only decides whether the loop gets to its end. *)
Lemma searchLoop_fuel (p : Worker H) (tc : nat -> bool) :
  forall fuel fuel' k toR r r',
    searchLoop fuel p tc k toR = Some r ->
    searchLoop fuel' p tc k toR = Some r' ->
    r = r'.
Proof.
  induction fuel as [| fuel IH]; intros fuel' k toR r r' Hr Hr';
    [discriminate |].
  destruct fuel' as [| fuel']; [discriminate |].
  cbn [searchLoop] in Hr, Hr'.
  destruct (ValidatePoWork p toR) as [res [e |]]; [congruence |].
  destruct res; [congruence |].
  destruct (tc k); [congruence |].
  eapply IH; eassumption.
Qed.

Lemma DoProofFor_fuel (p : Worker H) (timer : Timer) (m : list byte)
    (fuel fuel' : nat) (r r' : outcome) :
  DoProofFor p timer fuel m = Some r ->
  DoProofFor p timer fuel' m = Some r' ->
  r = r'.
Proof. unfold DoProofFor. apply searchLoop_fuel. Qed.

End SearchFuel.

Lemma filter_others (pending : list outcome) :
  filter Async.bySearcher (map (pair Async.Other) pending) = [].
Proof. induction pending as [| v l IH]; [reflexivity | exact IH]. Qed.

Section AsyncInvariants.

Context {H : Type} `{Hash H}.
Variable p : Worker H.
Variable timer : Timer.
Variable m : list byte.
Variable fuel : nat.
Variable r : outcome.
Hypothesis search_returns : DoProofFor p timer fuel m = Some r.

Lemma PrepareProof_invariant (s : Async.system) :
  Async.reachable p timer m Async.ViaPrepareProof Async.PrepareProof s ->
  Async.deliversOnce r s.
Proof.
  unfold Async.deliversOnce, Async.sent.
  induction 1 as [| s s' _ IH Hstep | s s' _ IH Hstep].
  - cbn. repeat split; auto; intros; congruence.
  - destruct IH as (Hsent & Hclosed & Hcap & Hpc & Hreads).
    inversion Hstep; subst; cbn in *;
      try discriminate; try contradiction;
      try (apply app_eq_nil in Hsent; destruct Hsent as [-> Hq];
           try rewrite Hq; try subst; cbn);
      repeat split; auto;
      try (eapply DoProofFor_fuel; eassumption);
      try (exfalso;
           match goal with
           | Hz : _ <> 0%nat |- _ =>
               apply Hreads in Hz; destruct Hz; discriminate
           end).
  - destruct IH as (Hsent & Hclosed & Hcap & Hpc & Hreads).
    inversion Hstep; subst; cbn in *; try discriminate;
      try rewrite <- app_assoc; cbn;
      repeat split; auto;
      try (match goal with
           | Hz : _ <> 0%nat |- _ =>
               apply Hreads in Hz; destruct Hz; congruence
           end);
      try (destruct g; try discriminate; reflexivity).
Qed.

Lemma PrepareProof_progress (s : Async.system) :
  Async.deliversOnce r s -> Async.pc s <> Async.Finished ->
  exists s', Async.run p timer m Async.ViaPrepareProof s s'.
Proof.
  destruct s as [g [n q b] rcv z].
  unfold Async.deliversOnce, Async.sent. cbn.
  intros (Hsent & Hclosed & Hcap & Hpc & _) Hnf.
  destruct g; try contradiction; subst.
  - eexists. eapply Async.run_search. exact search_returns.
  - apply app_eq_nil in Hsent. destruct Hsent as [_ ->].
    eexists. apply Async.run_send_handoff.
  - eexists. apply Async.run_close.
Qed.

Lemma SendProofToChannel_invariant (n : nat) (pending : list outcome)
    (wasClosed : bool) (s : Async.system) :
  Async.reachable p timer m Async.ViaSendProofToChannel
            (Async.SendProofToChannel n pending wasClosed) s ->
  Async.pushesOnce r wasClosed s.
Proof.
  unfold Async.pushesOnce, Async.sent.
  induction 1 as [| s s' _ IH Hstep | s s' _ IH Hstep].
  - cbn. rewrite filter_others. auto.
  - destruct IH as (Hsent & Hclosed & Hpc).
    inversion Hstep; subst; cbn in *; try contradiction.
    + repeat split; auto. eapply DoProofFor_fuel; eassumption.
    + rewrite app_assoc, filter_app, Hsent, Hpc. cbn. auto.
    + rewrite app_nil_r in *. rewrite filter_app, Hsent, Hpc. cbn. auto.
    + auto.
  - destruct IH as (Hsent & Hclosed & Hpc).
    inversion Hstep; subst; cbn in *.
    + rewrite <- app_assoc. cbn [app]. auto.
    + auto.
    + rewrite app_assoc, filter_app, Hsent. cbn.
      rewrite app_nil_r. auto.
    + rewrite app_nil_r in *. rewrite filter_app, Hsent. cbn.
      rewrite app_nil_r. auto.
Qed.

(** *** Delivery on the caller's channel *)

Lemma reachable_trans (fn : Async.entry) (a b c : Async.system) :
  Async.reachable p timer m fn a b ->
  Async.reachable p timer m fn b c ->
  Async.reachable p timer m fn a c.
Proof.
  intros Hab Hbc. induction Hbc as [| s s' _ IH Hstep | s s' _ IH Hstep].
  - exact Hab.
  - eapply Async.reach_run; eassumption.
  - eapply Async.reach_env; eassumption.
Qed.

(** Receivers can always take what is queued. *)
Lemma receivers_drain (fn : Async.entry) (init : Async.system)
    (g : Async.goroutine) (n : nat) (b : bool) (z : nat)
    (q : list (Async.party * outcome)) :
  forall rcv,
    Async.reachable p timer m fn init
      (Async.mkSystem g (Async.mkChan n q b) rcv z) ->
    Async.reachable p timer m fn init
      (Async.mkSystem g (Async.mkChan n [] b) (rcv ++ q) z).
Proof.
  induction q as [| v q IH]; intros rcv Hs.
  - rewrite app_nil_r. exact Hs.
  - replace (rcv ++ v :: q) with ((rcv ++ [v]) ++ q)
      by (rewrite <- app_assoc; reflexivity).
    apply IH. eapply Async.reach_env; [exact Hs | apply Async.env_recv].
Qed.

Lemma SendProofToChannel_no_panic (n : nat) (pending : list outcome)
    (s : Async.system) :
  Async.reachable p timer m Async.ViaSendProofToChannel
                  (Async.SendProofToChannel n pending false) s ->
  Async.pc s <> Async.Panicked.
Proof.
  induction 1 as [| s s' Hs IH Hstep | s s' Hs IH Hstep].
  - discriminate.
  - apply SendProofToChannel_invariant in Hs.
    destruct Hs as (_ & Hclosed & Hpc).
    inversion Hstep; subst; cbn in *;
      try discriminate; try contradiction.
  - inversion Hstep; subst; cbn in *; exact IH.
Qed.

Lemma SendProofToChannel_progress (n : nat) (pending : list outcome)
    (s : Async.system) :
  Async.reachable p timer m Async.ViaSendProofToChannel
                  (Async.SendProofToChannel n pending false) s ->
  Async.pc s <> Async.Finished ->
  (length (Async.queue (Async.ch s)) < Async.cap (Async.ch s))%nat
  \/ Async.queue (Async.ch s) = [] ->
  exists s', Async.run p timer m Async.ViaSendProofToChannel s s'.
Proof.
  intros Hs Hnf Hroom.
  pose proof (SendProofToChannel_no_panic n pending s Hs) as Hnp.
  apply SendProofToChannel_invariant in Hs.
  destruct Hs as (_ & Hclosed & Hpc).
  destruct s as [g [k q b] rcv z]. cbn in *. subst b.
  destruct g; try contradiction.
  - eexists. eapply Async.run_search. exact search_returns.
  - destruct Hroom as [Hlt | ->]; eexists.
    + apply Async.run_send_buffer. exact Hlt.
    + apply Async.run_send_handoff.
Qed.

Lemma SendProofToChannel_completes (n : nat) (pending : list outcome)
    (s : Async.system) :
  Async.reachable p timer m Async.ViaSendProofToChannel
                  (Async.SendProofToChannel n pending false) s ->
  exists s',
    Async.reachable p timer m Async.ViaSendProofToChannel s s'
    /\ Async.pc s' = Async.Finished.
Proof.
  intros Hs.
  pose proof (SendProofToChannel_no_panic n pending s Hs) as Hnp.
  apply SendProofToChannel_invariant in Hs.
  destruct Hs as (_ & Hclosed & Hpc).
  destruct s as [g [k q b] rcv z]. cbn in *. subst b.
  pose proof (receivers_drain Async.ViaSendProofToChannel _ g k false z q
                rcv (Async.reach_init _ _ _ _ _)) as Hdrained.
  destruct g; try contradiction.
  - exists (Async.mkSystem Async.Finished (Async.mkChan k [] false)
              ((rcv ++ q) ++ [(Async.Searcher, r)]) z).
    split; [| reflexivity].
    eapply Async.reach_run;
      [| apply (Async.run_send_handoff p timer m
                  Async.ViaSendProofToChannel r)].
    eapply Async.reach_run; [exact Hdrained |].
    eapply Async.run_search. exact search_returns.
  - exists (Async.mkSystem Async.Finished (Async.mkChan k [] false)
              ((rcv ++ q) ++ [(Async.Searcher, r0)]) z).
    split; [| reflexivity].
    eapply Async.reach_run; [exact Hdrained |].
    apply (Async.run_send_handoff p timer m Async.ViaSendProofToChannel).
  - eexists. split; [exact Hdrained | reflexivity].
Qed.

End AsyncInvariants.


(** C9. When the search on the message returns [r]: under any interleaving
    with the receivers, the channel returned by [PrepareProof] carries [r]
    and nothing else, once, and is closed after it, the goroutine never
    being blocked; there is a run in which the caller receives [r] and then
    finds the channel closed.  The goroutine of [SendProofToChannel] puts
    nothing but [r] on the caller's channel, once, and does not close it;
    on an open channel it never panics, it is never blocked while the
    buffer has room or the queue is empty for a receiver, and from every
    state it gets to its end, [r] sent once and the channel still open, as
    soon as receivers have taken what is queued. *)
Theorem async_entry_points_deliver_search_result {H : Type} `{Hash H}
    (p : Worker H) (timer : Timer) (m : list byte) (fuel : nat)
    (r : outcome) :
  DoProofFor p timer fuel m = Some r ->
  (forall s,
      Async.reachable p timer m Async.ViaPrepareProof Async.PrepareProof s ->
      Async.deliversOnce r s
      /\ (Async.pc s <> Async.Finished ->
          exists s', Async.run p timer m Async.ViaPrepareProof s s'))
  /\ Async.reachable p timer m Async.ViaPrepareProof Async.PrepareProof
       (Async.mkSystem Async.Finished (Async.mkChan 1 [] true)
                       [(Async.Searcher, r)] 1)
  /\ (forall n pending wasClosed s,
        Async.reachable p timer m Async.ViaSendProofToChannel
                  (Async.SendProofToChannel n pending wasClosed) s ->
        Async.pushesOnce r wasClosed s)
  /\ (forall n pending s,
        Async.reachable p timer m Async.ViaSendProofToChannel
                  (Async.SendProofToChannel n pending false) s ->
        Async.pc s <> Async.Panicked
        /\ (Async.pc s <> Async.Finished ->
            (length (Async.queue (Async.ch s)) < Async.cap (Async.ch s))%nat
            \/ Async.queue (Async.ch s) = [] ->
            exists s', Async.run p timer m Async.ViaSendProofToChannel s s')
        /\ exists s',
             Async.reachable p timer m Async.ViaSendProofToChannel s s'
             /\ Async.pc s' = Async.Finished
             /\ filter Async.bySearcher (Async.sent s')
                = [(Async.Searcher, r)]
             /\ Async.closed (Async.ch s') = false).
Proof.
  intros Hr. split; [| split; [| split]].
  - intros s Hs.
    pose proof (PrepareProof_invariant p timer m fuel r Hr s Hs)
      as Hinv.
    split; [exact Hinv |].
    apply (PrepareProof_progress p timer m fuel r Hr s Hinv).
  - eapply Async.reach_env; [| apply Async.env_recv_closed].
    eapply Async.reach_env;
      [| apply (Async.env_recv Async.ViaPrepareProof Async.Finished 1%nat
                  (Async.Searcher, r) [] true [] 0%nat)].
    eapply Async.reach_run; [| apply Async.run_close].
    eapply Async.reach_run;
      [| apply (Async.run_send_buffer p timer m Async.ViaPrepareProof
                  r 1 [] [] 0);
         cbn; lia].
    eapply Async.reach_run; [| eapply Async.run_search; exact Hr].
    apply Async.reach_init.
  - intros n pending wasClosed s Hs.
    exact (SendProofToChannel_invariant
             p timer m fuel r Hr n pending wasClosed s Hs).
  - intros n pending s Hs. split; [| split].
    + exact (SendProofToChannel_no_panic p timer m fuel r Hr n pending s Hs).
    + exact (SendProofToChannel_progress p timer m fuel r Hr n pending s Hs).
    + destruct (SendProofToChannel_completes p timer m fuel r Hr n pending
                  s Hs) as (s' & Hs' & Hfin).
      exists s'. split; [exact Hs' |]. split; [exact Hfin |].
      pose proof (SendProofToChannel_invariant p timer m fuel r Hr
                    n pending false s'
                    (reachable_trans p timer m _ _ _ _ Hs Hs'))
        as (Hsent & Hclosed & _).
      rewrite Hfin in Hsent. split; assumption.
Qed.

Lemma async_entry_points_deliver_search_result_witness :
  (forall s,
      Async.reachable (checksumWorker 8) tick [xfd] Async.ViaPrepareProof
                      Async.PrepareProof s ->
      Async.deliversOnce (Some (mkPoWork [xfd] 3 3), None) s
      /\ (Async.pc s <> Async.Finished ->
          exists s',
            Async.run (checksumWorker 8) tick [xfd] Async.ViaPrepareProof
                      s s'))
  /\ Async.reachable (checksumWorker 8) tick [xfd] Async.ViaPrepareProof
       Async.PrepareProof
       (Async.mkSystem Async.Finished (Async.mkChan 1 [] true)
          [(Async.Searcher, (Some (mkPoWork [xfd] 3 3), None))] 1)
  /\ (forall n pending wasClosed s,
        Async.reachable (checksumWorker 8) tick [xfd]
                  Async.ViaSendProofToChannel
                  (Async.SendProofToChannel n pending wasClosed) s ->
        Async.pushesOnce (Some (mkPoWork [xfd] 3 3), None) wasClosed s)
  /\ (forall n pending s,
        Async.reachable (checksumWorker 8) tick [xfd]
                  Async.ViaSendProofToChannel
                  (Async.SendProofToChannel n pending false) s ->
        Async.pc s <> Async.Panicked
        /\ (Async.pc s <> Async.Finished ->
            (length (Async.queue (Async.ch s)) < Async.cap (Async.ch s))%nat
            \/ Async.queue (Async.ch s) = [] ->
            exists s',
              Async.run (checksumWorker 8) tick [xfd]
                        Async.ViaSendProofToChannel s s')
        /\ exists s',
             Async.reachable (checksumWorker 8) tick [xfd]
                             Async.ViaSendProofToChannel s s'
             /\ Async.pc s' = Async.Finished
             /\ filter Async.bySearcher (Async.sent s')
                = [(Async.Searcher, (Some (mkPoWork [xfd] 3 3), None))]
             /\ Async.closed (Async.ch s') = false).
Proof.
  apply (async_entry_points_deliver_search_result
           (checksumWorker 8) tick [xfd] 10).
  vm_compute. reflexivity.
Defined.

(** ** Worked examples *)

Example scan_eleven_zero_bits : scanSum [x00; x1f] 11 = (true, None).
Proof. reflexivity. Qed.

Example scan_twelfth_bit_set : scanSum [x00; x1f] 12 = (false, None).
Proof. reflexivity. Qed.

Example scan_stops_at_first_one : scanSum [x80; x00] 1 = (false, None).
Proof. reflexivity. Qed.

Example scan_overrun : scanSum [x00] 9 = (false, Some ErrBufferOverrun).
Proof. reflexivity. Qed.

Example nonce_minus_two :
  LittleEndian_PutUint64 (uint64 (-2))
  = [xfe; xff; xff; xff; xff; xff; xff; xff].
Proof. vm_compute. reflexivity. Qed.

Example nonce_258 :
  LittleEndian_PutUint64 (uint64 258)
  = [x02; x01; x00; x00; x00; x00; x00; x00].
Proof. vm_compute. reflexivity. Qed.

Example increment_wraps : incr max_int = min_int.
Proof. reflexivity. Qed.

Example checksum_search :
  DoProofFor (checksumWorker 8) tick 10 [xfd]
  = Some (Some (mkPoWork [xfd] 3 3), None).
Proof. vm_compute. reflexivity. Qed.

Example checksum_search_needs_budget :
  DoProofFor (checksumWorker 8) tick 3 [xfd] = None.
Proof. vm_compute. reflexivity. Qed.

Example checksum_difficulty_too_high :
  DoProofFor (checksumWorker 9) tick 10 [xfd]
  = Some (None, Some ErrBufferOverrun).
Proof. vm_compute. reflexivity. Qed.

Example checksum_times_out :
  DoProofFor (mkWorker 8 (fun _ => mkChecksum 0) 1) tick 10 [xfd]
  = Some (None, Some ErrTimedOut).
Proof. vm_compute. reflexivity. Qed.

(** * Further properties of the package *)

(** ** Results of [ValidatePoWork] *)

Lemma scanSum_true_no_error (D : list byte) (N : Z) (e : option error) :
  scanSum D N = (true, e) -> e = None.
Proof.
  rewrite scanSum_scanBits.
  destruct (scanBits (digestBits D) N); cbn [finish]; congruence.
Qed.

(** X1. As the comment of [ValidatePoWork] promises, an answer [true] always
    comes with a [nil] error, for every hash, worker and candidate. *)
Theorem validate_true_without_error {H : Type} `{Hash H} (p : Worker H)
    (pow : PoWork) (e : option error) :
  ValidatePoWork p pow = (true, e) -> e = None.
Proof.
  rewrite ValidatePoWork_unfold. cbv zeta.
  destruct (snd (Write (Reset (getHash p tt)) (msg pow)));
    [discriminate |].
  match goal with
  | |- context [snd (Write ?h ?bs)] => destruct (snd (Write h bs))
  end; [discriminate |].
  apply scanSum_true_no_error.
Qed.

Lemma validate_true_without_error_witness : @None error = None.
Proof.
  apply (validate_true_without_error (checksumWorker 8) (mkPoWork [xfd] 3 3)).
  vm_compute. reflexivity.
Defined.

(** ** How the search ends *)


(** X2. The search returns exactly one of a proof and an error: a proof with
    a [nil] error, or a [nil] proof with an error. *)
Theorem search_proof_xor_error {H : Type} `{Hash H} (p : Worker H)
    (timer : Timer) (fuel : nat) (m : list byte) (P : option PoWork)
    (e : option error) :
  DoProofFor p timer fuel m = Some (P, e) ->
  (exists Q, P = Some Q /\ e = None) \/ (P = None /\ exists err, e = Some err).
Proof.
  intros Hrun. apply DoProofFor_ends in Hrun.
  destruct Hrun as (j & _ & _ & Hend).
  inversion Hend; subst; eauto.
Qed.

Lemma search_proof_xor_error_witness :
  (exists Q, Some (mkPoWork [xfd] 3 3) = Some Q /\ @None error = None)
  \/ (Some (mkPoWork [xfd] 3 3) = None /\ exists err, @None error = Some err).
Proof.
  apply (search_proof_xor_error (checksumWorker 8) tick 10 [xfd]).
  vm_compute. reflexivity.
Defined.

(** X3. If candidate [j] validates, the candidates before it are rejected
    and no [select] after them takes the timeout case, then the search
    returns candidate [j] as soon as its budget exceeds [j] iterations. *)
Theorem search_finds_first_valid {H : Type} `{Hash H} (p : Worker H)
    (timer : Timer) (fuel : nat) (m : list byte) (j : nat) :
  (j < fuel)%nat ->
  (forall i, (i < j)%nat ->
     ValidatePoWork p (candidate m i) = (false, None)
     /\ time_After (wrap64 (maxWait p * Millisecond)) timer i = false) ->
  ValidatePoWork p (candidate m j) = (true, None) ->
  DoProofFor p timer fuel m = Some (Some (candidate m j), None).
Proof.
  intros Hj Hrej Hv. unfold DoProofFor. rewrite <- candidate_0.
  apply (searchLoop_reaches p _ m fuel 0 j); [lia | |].
  - intros i Hi. apply Hrej. lia.
  - apply ends_valid. exact Hv.
Qed.

Lemma search_finds_first_valid_witness :
  DoProofFor (checksumWorker 8) tick 4 [xfd]
  = Some (Some (candidate [xfd] 3), None).
Proof.
  apply (search_finds_first_valid (checksumWorker 8) tick 4 [xfd] 3).
  - lia.
  - intros i Hi.
    destruct i as [| [| [| i]]]; [split; vm_compute; reflexivity .. | lia].
  - vm_compute. reflexivity.
Defined.

(** X4. The search returns at the latest when a [select] finds the timer's
    value: if at the check number [K] the duration has elapsed and the
    runtime has delivered the value, a budget of [K + 1] iterations is
    enough for [DoProofFor] to return. *)
Theorem search_returns_when_timer_delivered {H : Type} `{Hash H}
    (p : Worker H) (timer : Timer) (m : list byte) (K : nat) :
  wrap64 (maxWait p * Millisecond) <= Z.of_N (elapsed timer K) ->
  delivered timer K = true ->
  exists out, DoProofFor p timer (S K) m = Some out.
Proof.
  intros Hdue Hdel. unfold DoProofFor. apply searchLoop_due.
  unfold time_After. cbn [Nat.add]. rewrite Hdel.
  apply andb_true_iff. split; [apply Z.leb_le; exact Hdue | reflexivity].
Qed.

Lemma search_returns_when_timer_delivered_witness :
  exists out,
    DoProofFor (fst (SetTimeout stubbornWorker 3)) tick 4 [xff] = Some out.
Proof.
  apply (search_returns_when_timer_delivered
           (fst (SetTimeout stubbornWorker 3)) tick [xff] 3).
  - vm_compute. discriminate.
  - reflexivity.
Defined.

(** ** Time-outs *)

Lemma scanSum_error (D : list byte) (N : Z) (res : bool) (e : error) :
  scanSum D N = (res, Some e) -> e = ErrBufferOverrun.
Proof.
  rewrite scanSum_scanBits.
  destruct (scanBits (digestBits D) N); cbn [finish]; congruence.
Qed.

(** X5. With a hash whose [Write] never fails, a search that ends with the
    time-out error has examined and rejected the candidates [0 .. j], the
    duration had elapsed and the timer's value had been delivered at the
    check after candidate [j], and no earlier check had found the value. *)
Theorem timeout_only_after_duration {H : Type} `{Hash H} (p : Worker H)
    (timer : Timer) (fuel : nat) (m : list byte) :
  (forall h bs, snd (Write h bs) = None) ->
  DoProofFor p timer fuel m = Some (None, Some ErrTimedOut) ->
  exists j, (j < fuel)%nat
    /\ (forall i, (i <= j)%nat ->
          ValidatePoWork p (candidate m i) = (false, None))
    /\ wrap64 (maxWait p * Millisecond) <= Z.of_N (elapsed timer j)
    /\ delivered timer j = true
    /\ (forall i, (i < j)%nat ->
          Z.of_N (elapsed timer i) < wrap64 (maxWait p * Millisecond)
          \/ delivered timer i = false).
Proof.
  intros Hw Hrun. unfold DoProofFor in Hrun. rewrite <- candidate_0 in Hrun.
  apply searchLoop_not_due in Hrun. destruct Hrun as (j & Hj & Hrej & Hend).
  inversion Hend as [| j' res e Hv | j' Hv Hdue]; subst.
  - exfalso. rewrite ValidatePoWork_unfold in Hv. cbv zeta in Hv.
    rewrite !Hw in Hv. apply scanSum_error in Hv. discriminate.
  - unfold time_After in Hdue. apply andb_true_iff in Hdue.
    destruct Hdue as [Hdue Hdel].
    exists j. split; [lia |]. split; [| split; [| split]].
    + intros i Hi. destruct (Nat.eq_dec i j) as [-> | Hne];
        [exact Hv | apply Hrej; lia].
    + apply Z.leb_le. exact Hdue.
    + exact Hdel.
    + intros i Hi. destruct (Hrej i ltac:(lia)) as [_ Hnot].
      unfold time_After in Hnot. apply andb_false_iff in Hnot.
      destruct Hnot as [Hnot | Hnot];
        [left; apply Z.leb_gt; exact Hnot | right; exact Hnot].
Qed.

Lemma Checksum_Write_ok (h : Checksum) (bs : list byte) :
  snd (Write h bs) = None.
Proof. reflexivity. Qed.

Lemma timeout_only_after_duration_witness :
  exists j, (j < 10)%nat
    /\ (forall i, (i <= j)%nat ->
          ValidatePoWork (fst (SetTimeout (checksumWorker 8) 1))
                         (candidate [xfd] i) = (false, None))
    /\ wrap64 (maxWait (fst (SetTimeout (checksumWorker 8) 1)) * Millisecond)
       <= Z.of_N (elapsed tick j)
    /\ delivered tick j = true
    /\ (forall i, (i < j)%nat ->
          Z.of_N (elapsed tick i)
          < wrap64 (maxWait (fst (SetTimeout (checksumWorker 8) 1))
                    * Millisecond)
          \/ delivered tick i = false).
Proof.
  apply (timeout_only_after_duration
           (fst (SetTimeout (checksumWorker 8) 1)) tick 10 [xfd]).
  - exact Checksum_Write_ok.
  - vm_compute. reflexivity.
Defined.

Lemma duration_not_positive (ms : Z) :
  - 9223372036854 <= ms <= 0
  \/ 9223372036855 <= ms <= 18446744073709 ->
  wrap64 (ms * Millisecond) <= 0.
Proof.
  unfold Millisecond. intros [Hneg | Hbig].
  - rewrite wrap64_id by (unwrap; lia). lia.
  - unfold wrap64. rewrite two63, two64.
    replace (ms * 1000000 + 9223372036854775808)
      with (ms * 1000000 - 9223372036854775808
            + 1 * 18446744073709551616) by lia.
    rewrite Z.mod_add by lia. rewrite Z.mod_small by lia. lia.
Qed.

Lemma ValidatePoWork_timeout {H : Type} `{Hash H} (p : Worker H) (ms : Z)
    (pow : PoWork) :
  ValidatePoWork p pow = ValidatePoWork (fst (SetTimeout p ms)) pow.
Proof.
  rewrite !ValidatePoWork_unfold. unfold SetTimeout. cbn [maxWait].
  destruct (ms <? 0); reflexivity.
Qed.

(** X6. A stored timeout that is negative (from -9223372036854 ms), or so
    large that its conversion to nanoseconds overflows (from 9223372036855
    ms, which [SetTimeout] accepts), gives a duration at or below zero, and
    the search then behaves exactly as with a timeout of 0, for every timer
    and every budget. *)
Theorem degenerate_timeout_as_zero {H : Type} `{Hash H}
    (p : Worker H) (timer : Timer) (fuel : nat) (m : list byte) :
  - 9223372036854 <= maxWait p <= 0
  \/ 9223372036855 <= maxWait p <= 18446744073709 ->
  wrap64 (maxWait p * Millisecond) <= 0
  /\ DoProofFor p timer fuel m
     = DoProofFor (fst (SetTimeout p 0)) timer fuel m.
Proof.
  intros Hw. apply duration_not_positive in Hw. split; [exact Hw |].
  unfold DoProofFor. apply searchLoop_ext.
  - intros pow. apply ValidatePoWork_timeout.
  - intros k. rewrite !time_After_nonpositive; [reflexivity | | exact Hw].
    cbn. lia.
Qed.

Lemma degenerate_timeout_as_zero_witness :
  wrap64 (maxWait (fst (SetTimeout (checksumWorker 8) 9223372036855))
          * Millisecond) <= 0
  /\ DoProofFor (fst (SetTimeout (checksumWorker 8) 9223372036855))
                lateTick 5 [xfd]
     = DoProofFor (fst (SetTimeout
                          (fst (SetTimeout (checksumWorker 8) 9223372036855))
                          0))
                  lateTick 5 [xfd].
Proof.
  apply (degenerate_timeout_as_zero
           (fst (SetTimeout (checksumWorker 8) 9223372036855))
           lateTick 5 [xfd]).
  right. cbn. lia.
Defined.

(** ** A difficulty above the length of the digest *)

Lemma scanSum_too_short (D : list byte) (N : Z) :
  bitlength D < N <= max_int -> fst (scanSum D N) = false.
Proof.
  intros HN. rewrite scanSum_scanBits, scanBits_short.
  - destruct (forallb negb (digestBits D)); reflexivity.
  - rewrite digestBits_length. lia.
Qed.

(** X7. When the difficulty exceeds the number of bits of every digest of
    the hash, [ValidatePoWork] never answers [true] and the search never
    returns a proof. *)
Theorem excessive_difficulty_never_valid {H : Type} `{Hash H}
    (p : Worker H) :
  (forall h, bitlength (Sum h []) < difficulty p) ->
  difficulty p <= max_int ->
  (forall pow, fst (ValidatePoWork p pow) = false)
  /\ (forall timer fuel m P e,
        DoProofFor p timer fuel m <> Some (Some P, e)).
Proof.
  intros Hlen Hmax.
  assert (Hval : forall pow, fst (ValidatePoWork p pow) = false).
  { intros pow. rewrite ValidatePoWork_unfold. cbv zeta.
    destruct (snd (Write (Reset (getHash p tt)) (msg pow))); [reflexivity |].
    match goal with
    | |- context [snd (Write ?h ?bs)] => destruct (snd (Write h bs))
    end; [reflexivity |].
    apply scanSum_too_short. split; [apply Hlen | exact Hmax]. }
  split; [exact Hval |].
  intros timer fuel m P e Hrun.
  apply DoProofFor_success in Hrun.
  destruct Hrun as (j & _ & _ & _ & Hv & _).
  specialize (Hval (candidate m j)). rewrite Hv in Hval. discriminate.
Qed.

Lemma Checksum_digest_one_byte (h : Checksum) : bitlength (Sum h []) < 9.
Proof. unfold bitlength. cbn. lia. Qed.

Lemma excessive_difficulty_never_valid_witness :
  (forall pow, fst (ValidatePoWork (checksumWorker 9) pow) = false)
  /\ (forall timer fuel m P e,
        DoProofFor (checksumWorker 9) timer fuel m <> Some (Some P, e)).
Proof.
  apply (excessive_difficulty_never_valid (checksumWorker 9)).
  - exact Checksum_digest_one_byte.
  - unfold max_int. cbn. lia.
Defined.

(** ** The acceptance condition of the scan *)

Lemma forallb_firstn {A : Type} (f : A -> bool) (n : nat) (l : list A) :
  forallb f l = true -> forallb f (firstn n l) = true.
Proof.
  revert n. induction l as [| x l IH]; intros [| n] Hl; try reflexivity.
  cbn [firstn forallb] in *. apply andb_true_iff in Hl. destruct Hl as [Hx Hl].
  rewrite Hx. apply IH. exact Hl.
Qed.

Lemma leadingZeros_le (D : list byte) (n n' : nat) :
  (n' <= n)%nat -> leadingZeros n D = true -> leadingZeros n' D = true.
Proof.
  unfold leadingZeros. intros Hle Hn.
  replace n' with (Nat.min n' n) by lia.
  rewrite <- firstn_firstn. apply forallb_firstn. exact Hn.
Qed.

Lemma scanSum_enough (D : list byte) (N : Z) :
  1 <= N <= max_int -> N <= bitlength D ->
  scanSum D N = (leadingZeros (Z.to_nat N) D, None).
Proof.
  intros HN Hlen. rewrite scanSum_scanBits, scanBits_enough.
  - reflexivity.
  - exact HN.
  - rewrite digestBits_length. exact Hlen.
Qed.

(** X8. The scan accepts a digest for a difficulty [N] (a Go [int], the
    digest having fewer than [2 ^ 63] bits) exactly when [N] is at least 1,
    at most the number of bits of the digest, and the first [N] bits are
    zero; every other case is a plain [false] or an error. *)
Theorem scan_accepts_iff (D : list byte) (N : Z) :
  is_int N -> bitlength D < 2 ^ 63 ->
  (scanSum D N = (true, None)
   <-> 1 <= N <= bitlength D /\ leadingZeros (Z.to_nat N) D = true).
Proof.
  intros HN HD.
  destruct (Z_le_gt_dec N 0) as [Hnp | Hpos].
  - rewrite scanSum_nonpositive by (unfold is_int in HN; lia).
    split; [destruct (allZero D); discriminate | intros [Hr _]; lia].
  - destruct (Z_lt_le_dec (bitlength D) N) as [Hshort | Hfit].
    + split; [| intros [Hr _]; lia]. intros E.
      assert (Hf : fst (scanSum D N) = false)
        by (apply scanSum_too_short; unfold is_int in HN; lia).
      rewrite E in Hf. discriminate Hf.
    + rewrite scanSum_enough by (unfold is_int in HN; lia).
      split.
      * intros E. split; [lia | congruence].
      * intros [_ E]. rewrite E. reflexivity.
Qed.

Lemma scan_accepts_iff_witness :
  scanSum [x00; x1f] 11 = (true, None)
  <-> 1 <= 11 <= bitlength [x00; x1f]
      /\ leadingZeros (Z.to_nat 11) [x00; x1f] = true.
Proof.
  apply (scan_accepts_iff [x00; x1f] 11).
  - unfold is_int, min_int, max_int. lia.
  - unfold bitlength. cbn. lia.
Defined.

(** X9. A candidate that validates at the worker's difficulty validates at
    every lower difficulty from 1 on: lowering the difficulty with
    [SetDifficulty] never invalidates a proof. *)
Theorem valid_at_lower_difficulty {H : Type} `{Hash H} (p : Worker H)
    (pow : PoWork) (n : Z) :
  1 <= n <= difficulty p -> difficulty p <= max_int ->
  ValidatePoWork p pow = (true, None) ->
  ValidatePoWork (fst (SetDifficulty p n)) pow = (true, None).
Proof.
  intros Hn Hmax. rewrite !ValidatePoWork_unfold. cbv zeta.
  replace (getHash (fst (SetDifficulty p n))) with (getHash p)
    by (unfold SetDifficulty; destruct (n <=? 0); reflexivity).
  replace (difficulty (fst (SetDifficulty p n))) with n
    by (unfold SetDifficulty; destruct (n <=? 0); reflexivity).
  destruct (snd (Write (Reset (getHash p tt)) (msg pow)));
    [discriminate |].
  match goal with
  | |- context [snd (Write ?h ?bs)] => destruct (snd (Write h bs))
  end; [discriminate |].
  match goal with
  | |- scanSum ?D _ = _ -> _ => generalize D
  end.
  intros D E.
  destruct (Z_lt_le_dec (bitlength D) (difficulty p)) as [Hshort | Hfit].
  - assert (Hf : fst (scanSum D (difficulty p)) = false)
      by (apply scanSum_too_short; lia).
    rewrite E in Hf. discriminate Hf.
  - rewrite scanSum_enough in E by lia.
    rewrite scanSum_enough by lia.
    f_equal. apply (leadingZeros_le D (Z.to_nat (difficulty p))); [lia |].
    congruence.
Qed.

Lemma valid_at_lower_difficulty_witness :
  ValidatePoWork (fst (SetDifficulty (checksumWorker 8) 5))
                 (mkPoWork [xfd] 3 3) = (true, None).
Proof.
  apply (valid_at_lower_difficulty (checksumWorker 8) (mkPoWork [xfd] 3 3) 5).
  - cbn. lia.
  - unfold max_int. cbn. lia.
  - vm_compute. reflexivity.
Defined.

(** X10. The scan stops at its decision: when it returns without the
    overrun error on a digest, it returns the same on that digest followed
    by any further bytes. *)
Theorem scan_ignores_later_bytes (D D' : list byte) (N : Z) :
  snd (scanSum D N) = None ->
  scanSum (D ++ D') N = scanSum D N.
Proof.
  rewrite !scanSum_scanBits. unfold digestBits.
  rewrite flat_map_app, scanBits_app.
  destruct (scanBits (flat_map byteBits D) N); cbn [finish snd];
    [reflexivity | discriminate].
Qed.

Lemma scan_ignores_later_bytes_witness :
  scanSum ([x00; x1f] ++ [xff; x00]) 11 = scanSum [x00; x1f] 11.
Proof.
  apply (scan_ignores_later_bytes [x00; x1f] [xff; x00] 11).
  reflexivity.
Defined.

(** ** The encoding of the nonce *)

Lemma PutUint64_decodes (v : Z) :
  LittleEndian_Uint64 (LittleEndian_PutUint64 (uint64 v)) = v mod 2 ^ 64.
Proof.
  unfold LittleEndian_PutUint64. rewrite LittleEndian_roundtrip.
  unfold uint64. change (8 * Z.of_nat 8) with 64. apply Z.mod_mod. lia.
Qed.

(** X11. Two nonces of the [int64] range that [ValidatePoWork] would write
    as the same eight bytes are equal: distinct candidates of one message
    give the hash distinct input. *)
Theorem nonce_encoding_injective (a b : Z) :
  is_int a -> is_int b ->
  LittleEndian_PutUint64 (uint64 a) = LittleEndian_PutUint64 (uint64 b) ->
  a = b.
Proof.
  intros Ha Hb E.
  apply (f_equal LittleEndian_Uint64) in E. rewrite !PutUint64_decodes in E.
  rewrite <- (wrap64_id a Ha), <- (wrap64_id b Hb). unfold wrap64.
  rewrite <- (Z.add_mod_idemp_l a), <- (Z.add_mod_idemp_l b) by lia.
  rewrite E. reflexivity.
Qed.

Lemma nonce_encoding_injective_witness : (-2) = (-2).
Proof.
  apply (nonce_encoding_injective (-2) (-2)).
  - unfold is_int, min_int, max_int. lia.
  - unfold is_int, min_int, max_int. lia.
  - reflexivity.
Defined.

(** ** The string entry point and the accessors *)

(** X12. A proof returned by [DoProofForString] on a string gives that
    string back through [GetMessageString] and its bytes through
    [GetMessage], and it validates. *)
Theorem string_proof_returns_its_message {H : Type} `{Hash H}
    (p : Worker H) (timer : Timer) (fuel : nat) (s : string)
    (P : PoWork) (e : option error) :
  DoProofForString p timer fuel s = Some (Some P, e) ->
  GetMessageString P = s
  /\ GetMessage P = bytes_of_string s
  /\ ValidatePoWork p P = (true, None).
Proof.
  unfold DoProofForString. intros Hrun. apply DoProofFor_success in Hrun.
  destruct Hrun as (j & _ & -> & _ & Hv & _).
  unfold GetMessageString, GetMessage, string_of_bytes, bytes_of_string.
  cbn [candidate msg].
  split; [apply string_of_list_byte_of_string | split; [reflexivity |]].
  exact Hv.
Qed.

Lemma string_proof_returns_its_message_witness :
  GetMessageString (mkPoWork (bytes_of_string "hi") 47 47) = "hi"%string
  /\ GetMessage (mkPoWork (bytes_of_string "hi") 47 47)
     = bytes_of_string "hi"
  /\ ValidatePoWork (checksumWorker 8)
                    (mkPoWork (bytes_of_string "hi") 47 47) = (true, None).
Proof.
  apply (string_proof_returns_its_message
           (checksumWorker 8) tick 50 "hi"
           (mkPoWork (bytes_of_string "hi") 47 47) None).
  vm_compute. reflexivity.
Defined.

(** ** The nonce wraps around *)

Lemma wrap64_mod (z : Z) : wrap64 (z mod 2 ^ 64) = wrap64 z.
Proof.
  unfold wrap64. rewrite Z.add_mod_idemp_l by lia. reflexivity.
Qed.

(** X13. The nonce has [2 ^ 64] values and the candidates repeat after
    them: if the first [2 ^ 64] candidates of a message are all rejected,
    no search on that message ever returns a proof. *)
Theorem exhausted_nonces_never_succeed {H : Type} `{Hash H} (p : Worker H)
    (m : list byte) :
  (forall i, Z.of_nat i < 2 ^ 64 ->
     ValidatePoWork p (candidate m i) = (false, None)) ->
  forall timer fuel P e, DoProofFor p timer fuel m <> Some (Some P, e).
Proof.
  intros Hrej timer fuel P e Hrun.
  apply DoProofFor_success in Hrun.
  destruct Hrun as (j & _ & _ & _ & Hv & _).
  assert (Hb : 0 <= Z.of_nat j mod 2 ^ 64 < 2 ^ 64)
    by (apply Z.mod_pos_bound; lia).
  specialize (Hrej (Z.to_nat (Z.of_nat j mod 2 ^ 64))).
  unfold candidate in Hrej, Hv.
  rewrite Z2Nat.id, wrap64_mod in Hrej by lia.
  rewrite Hrej in Hv by lia. discriminate.
Qed.

Lemma stubborn_rejects (i : nat) :
  ValidatePoWork stubbornWorker (candidate [xff] i) = (false, None).
Proof. rewrite ValidatePoWork_unfold. reflexivity. Qed.

Lemma exhausted_nonces_never_succeed_witness :
  DoProofFor stubbornWorker tick 7 [xff]
  <> Some (Some (mkPoWork [xff] 0 0), None).
Proof.
  apply (exhausted_nonces_never_succeed stubbornWorker [xff]).
  intros i _. apply stubborn_rejects.
Defined.

(** ** A closed channel given to [SendProofToChannel] *)

(** X14. On a channel that is already closed, the goroutine of
    [SendProofToChannel] never delivers anything and never finishes: the
    channel stays closed, and once the search has returned the goroutine
    can stop on the run-time panic of its send. *)
Theorem send_on_closed_channel_panics {H : Type} `{Hash H} (p : Worker H)
    (timer : Timer) (m : list byte) (n : nat) (pending : list outcome) :
  (forall s,
      Async.reachable p timer m Async.ViaSendProofToChannel
                      (Async.SendProofToChannel n pending true) s ->
      Async.pc s <> Async.Finished
      /\ Async.pc s <> Async.Closing
      /\ Async.closed (Async.ch s) = true
      /\ filter Async.bySearcher (Async.sent s) = [])
  /\ (forall fuel r,
        DoProofFor p timer fuel m = Some r ->
        Async.reachable p timer m Async.ViaSendProofToChannel
          (Async.SendProofToChannel n pending true)
          (Async.mkSystem Async.Panicked
             (Async.mkChan n (map (pair Async.Other) pending) true) [] 0)).
Proof.
  split.
  - unfold Async.sent.
    induction 1 as [| s s' _ IH Hstep | s s' _ IH Hstep].
    + cbn. rewrite filter_others. repeat split; auto; discriminate.
    + destruct IH as (Hnf & Hnc & Hclosed & Hsent).
      inversion Hstep; subst; cbn in *;
        try discriminate; try contradiction;
        repeat split; auto; discriminate.
    + destruct IH as (Hnf & Hnc & Hclosed & Hsent).
      inversion Hstep; subst; cbn in *; try discriminate.
      * rewrite <- app_assoc. cbn [app]. auto.
      * auto.
  - intros fuel r Hr.
    eapply Async.reach_run; [| apply Async.run_send_closed].
    eapply Async.reach_run; [| eapply Async.run_search; exact Hr].
    apply Async.reach_init.
Qed.

(** ** Several searches sharing a channel of [GetChannel] *)

Section PoolFacts.

Lemma update_length {A : Type} (x : A) (l : list A) :
  forall i, length (Pool.update i x l) = length l.
Proof.
  induction l as [| a l IH]; intros [| i]; cbn; auto.
Qed.

Lemma update_same {A : Type} (x : A) (l : list A) :
  forall i a, nth_error l i = Some a ->
              nth_error (Pool.update i x l) i = Some x.
Proof.
  induction l as [| b l IH]; intros [| i] a Hi;
    cbn in *; try discriminate; eauto.
Qed.

Lemma update_other {A : Type} (x : A) (l : list A) :
  forall i j, i <> j ->
              nth_error (Pool.update i x l) j = nth_error l j.
Proof.
  induction l as [| b l IH]; intros [| i] [| j] Hne;
    cbn; try reflexivity; try contradiction.
  apply IH. congruence.
Qed.

Lemma finishedResults_idle (gs : list Async.goroutine) :
  forall rs i g g',
    nth_error gs i = Some g ->
    g <> Async.Finished -> g' <> Async.Finished ->
    Pool.finishedResults (Pool.update i g' gs) rs
    = Pool.finishedResults gs rs.
Proof.
  induction gs as [| a gs IH]; intros rs [| i] g g' Hi Hg Hg';
    cbn in *; try discriminate.
  - injection Hi as ->. destruct rs as [| r rs]; [reflexivity |].
    destruct g, g'; try contradiction; reflexivity.
  - destruct rs as [| r rs]; [reflexivity |].
    rewrite (IH rs i g g') by assumption. reflexivity.
Qed.

Lemma finishedResults_finish (gs : list Async.goroutine) :
  forall rs i g r,
    nth_error gs i = Some g -> g <> Async.Finished ->
    nth_error rs i = Some r ->
    Permutation (Pool.finishedResults (Pool.update i Async.Finished gs) rs)
                (r :: Pool.finishedResults gs rs).
Proof.
  induction gs as [| a gs IH]; intros rs [| i] g r Hi Hg Hr;
    destruct rs as [| r0 rs]; cbn in *; try discriminate.
  - injection Hi as ->. injection Hr as ->.
    destruct g; try contradiction; reflexivity.
  - specialize (IH rs i g r Hi Hg Hr).
    destruct a; try exact IH.
    rewrite IH. apply perm_swap.
Qed.

Lemma finishedResults_short (gs : list Async.goroutine) :
  forall rs i g,
    nth_error gs i = Some g -> g <> Async.Finished ->
    (length (Pool.finishedResults gs rs) < length gs)%nat.
Proof.
  assert (Hle : forall gs rs,
             (length (Pool.finishedResults gs rs) <= length gs)%nat).
  { clear. induction gs as [| a gs IH]; intros [| r rs]; cbn; try lia.
    specialize (IH rs). destruct a; cbn; lia. }
  induction gs as [| a gs IH]; intros rs [| i] g Hi Hg;
    cbn in *; try discriminate.
  - injection Hi as ->. destruct rs as [| r rs]; cbn; [lia |].
    specialize (Hle gs rs). destruct g; try contradiction; lia.
  - destruct rs as [| r rs]; cbn; [lia |].
    specialize (IH rs i g Hi Hg). destruct a; cbn; lia.
Qed.

Lemma finishedResults_none {A : Type} (l : list A) (rs : list outcome) :
  Pool.finishedResults (map (fun _ => Async.Searching) l) rs = [].
Proof.
  revert rs. induction l as [| a l IH]; intros [| r rs]; cbn; auto.
Qed.

Lemma finishedResults_all (gs : list Async.goroutine) :
  forall rs,
    length rs = length gs ->
    (forall g, In g gs -> g = Async.Finished) ->
    Pool.finishedResults gs rs = rs.
Proof.
  induction gs as [| a gs IH]; intros [| r rs] Hlen Hall;
    cbn in *; try discriminate; [reflexivity |].
  rewrite (Hall a) by auto. f_equal. apply IH; [lia | auto].
Qed.

Lemma searching_only {A : Type} (l : list A) (i : nat) (g : Async.goroutine) :
  nth_error (map (fun _ => Async.Searching) l) i = Some g ->
  g = Async.Searching.
Proof.
  revert i. induction l as [| a l IH]; intros [| i] Hi;
    cbn in *; try discriminate; [congruence | eauto].
Qed.

End PoolFacts.

Section PoolInvariant.

Context {H : Type} `{Hash H}.
Variable p : Worker H.
Variable clocks : nat -> Timer.
Variable msgs : list (list byte).
Variable rs : list outcome.
Variable buffer : nat.
Hypothesis searches_return :
  forall i m, nth_error msgs i = Some m ->
    exists fuel r, nth_error rs i = Some r
                   /\ DoProofFor p (clocks i) fuel m = Some r.

(** What the pool keeps: one goroutine per message, an open channel of
    the capacity it was made with, goroutines that send the result of
    their own search, and on the channel the results of the goroutines
    that have finished. *)
Let kept (s : Pool.state) : Prop :=
  length (Pool.pcs s) = length msgs
  /\ Async.closed (Pool.ch s) = false
  /\ Async.cap (Pool.ch s) = buffer
  /\ (forall i g, nth_error (Pool.pcs s) i = Some g ->
        match g with
        | Async.Sending r' => nth_error rs i = Some r'
        | Async.Closing | Async.Panicked => False
        | _ => True
        end)
  /\ Permutation
       (map snd (Pool.received s ++ Async.queue (Pool.ch s)))
       (Pool.finishedResults (Pool.pcs s) rs).

Lemma pool_kept (s : Pool.state) :
  Pool.reachable p clocks msgs
    (Pool.start msgs (Async.mkChan buffer [] false)) s ->
  kept s.
Proof.
  unfold kept.
  induction 1 as [| s s' _ IH Hstep].
  - cbn. rewrite length_map, finishedResults_none.
    repeat split; auto.
    intros i g Hi. apply searching_only in Hi. subst. exact I.
  - destruct IH as (Hlen & Hclosed & Hcap & Hpcs & Hperm).
    inversion Hstep as [i m g g' gs c c' rcv rcv' z z' Hi Hm Hrun
                       | gs n v q b rcv z | gs n rcv z]; subst; cbn in *.
    + pose proof (Hpcs i g Hi) as Hg.
      assert (Hothers : forall g1, g1 <> Async.Closing ->
                g1 <> Async.Panicked ->
                (forall r', g1 = Async.Sending r' ->
                            nth_error rs i = Some r') ->
                forall j g2,
                  nth_error (Pool.update i g1 gs) j = Some g2 ->
                  match g2 with
                  | Async.Sending r' => nth_error rs j = Some r'
                  | Async.Closing | Async.Panicked => False
                  | _ => True
                  end).
      { intros g1 Hc Hp Hs j g2 Hj.
        destruct (Nat.eq_dec i j) as [<- | Hne].
        - rewrite (update_same g1 gs i g Hi) in Hj. injection Hj as <-.
          destruct g1; try exact I; try contradiction. apply Hs. reflexivity.
        - rewrite update_other in Hj by assumption. apply Hpcs. exact Hj. }
      inversion Hrun; subst; cbn in *; try discriminate;
        try contradiction; rewrite update_length.
      * destruct (searches_return i m Hm) as (fuel' & r' & Hri & Hdo).
        assert (r = r') by (eapply DoProofFor_fuel; eassumption). subst r'.
        repeat split; auto.
        -- apply Hothers; try discriminate. congruence.
        -- rewrite (finishedResults_idle gs rs i Async.Searching)
             by (assumption || discriminate). exact Hperm.
      * repeat split; auto.
        -- apply Hothers; discriminate.
        -- rewrite app_assoc, map_app. cbn [map snd].
           rewrite (finishedResults_finish gs rs i (Async.Sending r) r)
             by (assumption || discriminate).
           rewrite <- Hperm. symmetry. apply Permutation_cons_append.
      * repeat split; auto.
        -- apply Hothers; discriminate.
        -- rewrite app_nil_r in *. rewrite map_app. cbn [map snd].
           rewrite (finishedResults_finish gs rs i (Async.Sending r) r)
             by (assumption || discriminate).
           rewrite <- Hperm. symmetry. apply Permutation_cons_append.
    + rewrite <- app_assoc. cbn [app]. repeat split; auto.
    + discriminate.
Qed.

Lemma pool_progress (s : Pool.state) :
  (length msgs <= buffer)%nat ->
  kept s ->
  forall i g,
    nth_error (Pool.pcs s) i = Some g -> g <> Async.Finished ->
    exists m g' c' rcv' z',
      nth_error msgs i = Some m
      /\ Async.run p (clocks i) m Async.ViaSendProofToChannel
           (Async.mkSystem g (Pool.ch s) (Pool.received s)
                           (Pool.closedReads s))
           (Async.mkSystem g' c' rcv' z').
Proof.
  intros Hbuf (Hlen & Hclosed & Hcap & Hpcs & Hperm) i g Hi Hg.
  destruct s as [gs [n q b] rcv z]. cbn in *. subst b n.
  assert (Hlt : (i < length msgs)%nat).
  { rewrite <- Hlen. apply nth_error_Some. congruence. }
  destruct (nth_error msgs i) as [m |] eqn:Hm;
    [| apply nth_error_None in Hm; lia].
  exists m.
  pose proof (Hpcs i g Hi) as Hgi.
  destruct g; try contradiction.
  - destruct (searches_return i m Hm) as (fuel & r & _ & Hdo).
    do 4 eexists. split; [reflexivity |].
    eapply Async.run_search. exact Hdo.
  - do 4 eexists. split; [reflexivity |].
    apply Async.run_send_buffer.
    pose proof (finishedResults_short gs rs i (Async.Sending r) Hi Hg)
      as Hshort.
    apply Permutation_length in Hperm.
    rewrite length_map, length_app in Hperm. lia.
Qed.

End PoolInvariant.

(** X15. Searches submitted with [SendProofToChannel] on one channel
    obtained from [GetChannel], with a buffer at least the number of
    messages, each search returning: under any interleaving the channel
    stays open, what has been sent on it is, up to order, the results of the
    goroutines that have finished (all the results once all have finished),
    and no goroutine that has not finished is ever blocked. *)
Theorem shared_channel_collects_results {H : Type} `{Hash H} (p : Worker H)
    (clocks : nat -> Timer) (msgs : list (list byte)) (rs : list outcome)
    (buffer : Z) (c : Async.chanState) :
  GetChannel buffer = Some c ->
  Z.of_nat (length msgs) <= buffer ->
  length rs = length msgs ->
  (forall i m, nth_error msgs i = Some m ->
     exists fuel r, nth_error rs i = Some r
                    /\ DoProofFor p (clocks i) fuel m = Some r) ->
  forall s,
    Pool.reachable p clocks msgs (Pool.start msgs c) s ->
    Async.closed (Pool.ch s) = false
    /\ Permutation (map snd (Pool.received s ++ Async.queue (Pool.ch s)))
                   (Pool.finishedResults (Pool.pcs s) rs)
    /\ ((forall g, In g (Pool.pcs s) -> g = Async.Finished) ->
        Permutation (map snd (Pool.received s ++ Async.queue (Pool.ch s)))
                    rs)
    /\ (forall i g,
          nth_error (Pool.pcs s) i = Some g -> g <> Async.Finished ->
          exists m g' c' rcv' z',
            nth_error msgs i = Some m
            /\ Async.run p (clocks i) m Async.ViaSendProofToChannel
                 (Async.mkSystem g (Pool.ch s) (Pool.received s)
                                 (Pool.closedReads s))
                 (Async.mkSystem g' c' rcv' z')).
Proof.
  intros Hc Hbuf Hlen Hres s Hs.
  unfold GetChannel in Hc.
  destruct (Z.ltb_spec buffer 0) as [Hneg | Hpos]; [discriminate |].
  injection Hc as <-.
  pose proof (pool_kept p clocks msgs rs (Z.to_nat buffer) Hres s Hs)
    as Hkept.
  pose proof Hkept as (Hl & Hclosed & _ & _ & Hperm).
  split; [exact Hclosed |]. split; [exact Hperm |]. split.
  - intros Hall. rewrite Hperm.
    rewrite finishedResults_all; [reflexivity | lia | exact Hall].
  - apply (pool_progress p clocks msgs rs (Z.to_nat buffer) Hres s);
      [lia | exact Hkept].
Qed.

Lemma one_of_two_delivered :
  Pool.reachable (checksumWorker 8) (fun _ => tick) [[xfd]; [xfe]]
    (Pool.start [[xfd]; [xfe]] (Async.mkChan 2 [] false))
    (Pool.mkState [Async.Finished; Async.Searching]
       (Async.mkChan 2 [(Async.Searcher, (Some (mkPoWork [xfd] 3 3), None))]
                     false) [] 0).
Proof.
  eapply Pool.reach_step.
  - eapply Pool.reach_step; [apply Pool.reach_init |].
    apply (Pool.step_run (checksumWorker 8) (fun _ => tick) [[xfd]; [xfe]]
             0 [xfd] Async.Searching
             (Async.Sending (Some (mkPoWork [xfd] 3 3), None))
             [Async.Searching; Async.Searching]
             (Async.mkChan 2 [] false) (Async.mkChan 2 [] false)
             [] [] 0 0); [reflexivity | reflexivity |].
    apply (Async.run_search (checksumWorker 8) tick [xfd]
             Async.ViaSendProofToChannel 10).
    vm_compute. reflexivity.
  - apply (Pool.step_run (checksumWorker 8) (fun _ => tick) [[xfd]; [xfe]]
             0 [xfd] (Async.Sending (Some (mkPoWork [xfd] 3 3), None))
             Async.Finished
             [Async.Sending (Some (mkPoWork [xfd] 3 3), None);
              Async.Searching]
             (Async.mkChan 2 [] false)
             (Async.mkChan 2
                [(Async.Searcher, (Some (mkPoWork [xfd] 3 3), None))] false)
             [] [] 0 0); [reflexivity | reflexivity |].
    apply (Async.run_send_buffer (checksumWorker 8) tick [xfd]
             Async.ViaSendProofToChannel
             (Some (mkPoWork [xfd] 3 3), None) 2 [] [] 0).
    cbn. lia.
Qed.

Lemma shared_channel_collects_results_witness :
  Permutation
    (map snd ([] ++ [(Async.Searcher, (Some (mkPoWork [xfd] 3 3), None))]))
    (Pool.finishedResults [Async.Finished; Async.Searching]
       [(Some (mkPoWork [xfd] 3 3), None);
        (Some (mkPoWork [xfe] 2 2), None)])
  /\ exists m g' c' rcv' z',
       nth_error [[xfd]; [xfe]] 1 = Some m
       /\ Async.run (checksumWorker 8) tick m Async.ViaSendProofToChannel
            (Async.mkSystem Async.Searching
               (Async.mkChan 2
                  [(Async.Searcher, (Some (mkPoWork [xfd] 3 3), None))]
                  false) [] 0)
            (Async.mkSystem g' c' rcv' z').
Proof.
  assert (Hres : forall i m, nth_error [[xfd]; [xfe]] i = Some m ->
            exists fuel r,
              nth_error [(Some (mkPoWork [xfd] 3 3), None);
                         (Some (mkPoWork [xfe] 2 2), None)] i = Some r
              /\ DoProofFor (checksumWorker 8) tick fuel m = Some r).
  { intros i m Hi.
    destruct i as [| [| i]]; cbn in Hi.
    - injection Hi as <-. exists 10%nat. eexists.
      split; [reflexivity | vm_compute; reflexivity].
    - injection Hi as <-. exists 10%nat. eexists.
      split; [reflexivity | vm_compute; reflexivity].
    - destruct i; discriminate. }
  pose proof (shared_channel_collects_results
                (checksumWorker 8) (fun _ => tick) [[xfd]; [xfe]]
                [(Some (mkPoWork [xfd] 3 3), None);
                 (Some (mkPoWork [xfe] 2 2), None)] 2
                (Async.mkChan 2 [] false)
                eq_refl ltac:(cbn; lia) eq_refl Hres _ one_of_two_delivered)
    as (_ & Hperm & _ & Hprog).
  split; [exact Hperm |].
  apply (Hprog 1%nat Async.Searching); [reflexivity | discriminate].
Defined.

(** ** Failures of a well-configured search *)

(** X16. With a hash whose [Write] never fails and a difficulty between 1
    and the number of bits of every digest, the only error the search can
    return is the time-out. *)
Theorem only_failure_is_timeout {H : Type} `{Hash H} (p : Worker H)
    (timer : Timer) (fuel : nat) (m : list byte) (P : option PoWork)
    (e : error) :
  (forall h bs, snd (Write h bs) = None) ->
  (forall h, 1 <= difficulty p <= bitlength (Sum h [])) ->
  difficulty p <= max_int ->
  DoProofFor p timer fuel m = Some (P, Some e) ->
  P = None /\ e = ErrTimedOut.
Proof.
  intros Hw Hfit Hmax Hrun. apply DoProofFor_ends in Hrun.
  destruct Hrun as (j & _ & _ & Hend).
  inversion Hend as [| j' res e' Hv | j' Hv Hdue]; subst; [| auto].
  exfalso. rewrite ValidatePoWork_unfold in Hv. cbv zeta in Hv.
  rewrite !Hw in Hv.
  rewrite scanSum_enough in Hv by (specialize (Hfit
    (afterWrite (afterWrite (Reset (getHash p tt)) (msg (candidate m j)))
       (LittleEndian_PutUint64 (uint64 (proof (candidate m j)))))); lia).
  discriminate.
Qed.

Lemma Checksum_digest_fits (h : Checksum) :
  1 <= difficulty (fst (SetTimeout (checksumWorker 8) 1))
    <= bitlength (Sum h []).
Proof. unfold bitlength. cbn. lia. Qed.

Lemma only_failure_is_timeout_witness :
  @None PoWork = None /\ ErrTimedOut = ErrTimedOut.
Proof.
  apply (only_failure_is_timeout
           (fst (SetTimeout (checksumWorker 8) 1)) tick 10 [xfd]).
  - exact Checksum_Write_ok.
  - exact Checksum_digest_fits.
  - unfold max_int. cbn. lia.
  - vm_compute. reflexivity.
Defined.
